(** * Multi-resolution similarity registration: a shallow embedding

    This development embeds [medical_image_corregistration.py] and checks the
    properties stated about it.

    Numbers.  Every Python [float] and every element of a NumPy [float64]
    array is an IEEE-754 binary64 value; it is modelled by Rocq's primitive
    [float], whose operations are the same correctly rounded operations.
    The images the main block loads are [float32] arrays; their samples are
    modelled in binary64 as well.  Python integers are [Z], loop counters
    that index lists are [nat].

    Arrays.  A one-dimensional [ndarray] is a [list float]; a two-dimensional
    one is a record holding its shape and its row-major buffer.

    Errors.  A Python exception is [None] in the [option] monad.

    Libraries.  [scipy.ndimage.zoom], [numpy.cos], [numpy.sin] and
    [numpy.deg2rad] are not part of the program: they are variables of the
    section below.  [scipy.ndimage.affine_transform] is modelled from the
    description the specification gives of it. *)

From Stdlib Require Import ZArith Uint63 Floats Lia.
From stdpp Require Import base option list.

Set Warnings "-inexact-float".

#[local] Open Scope float_scope.

(** ** Scalars *)

(** Conversion of an integer to [float64], rounding to nearest even (for
    magnitudes below [2^63], which covers array shapes, pixel indices and
    the pyramid's scale factors). *)
Definition Z2F (z : Z) : float :=
  if (z <? 0)%Z then - of_uint63 (Uint63.of_Z (- z))
  else of_uint63 (Uint63.of_Z z).

(** [floor] of a float, when it is a number. *)
Definition SFfloor (x : spec_float) : option Z :=
  match x with
  | S754_zero _ => Some 0%Z
  | S754_finite s m e => Some (Z.shiftl (cond_Zopp s (Zpos m)) e)
  | _ => None
  end.

Definition ffloor (x : float) : option Z := SFfloor (Prim2SF x).

(** [x ** n] for a float [x] and a non-negative integer [n], by repeated
    multiplication (Python hands the operation to the C library's [pow],
    whose result may differ from the product in the last bit). *)
Fixpoint fpow (x : float) (n : nat) : float :=
  match n with
  | O => 1
  | S k => x * fpow x k
  end.

(** Python's [x != 0] on floats: true on NaN, false on both zeros. *)
Definition fne0 (x : float) : bool := negb (x =? 0).


(** A float that is neither NaN nor infinite. *)
Definition SFfinite (x : spec_float) : bool :=
  match x with
  | S754_zero _ | S754_finite _ _ _ => true
  | _ => false
  end.

Definition is_finite (x : float) : bool := SFfinite (Prim2SF x).



(** [+0] or a positive finite number. *)
Definition SFplain (x : spec_float) : bool :=
  match x with
  | S754_zero false | S754_finite false _ _ => true
  | _ => false
  end.

Definition fplain (x : float) : bool := SFplain (Prim2SF x).

(** A zero of either sign. *)
Definition SFzero (x : spec_float) : bool :=
  match x with
  | S754_zero _ => true
  | _ => false
  end.

Definition fzero (x : float) : bool := SFzero (Prim2SF x).

(** A float that carries the sign [s] and is not NaN. *)
Definition SFsigned (s : bool) (x : spec_float) : Prop :=
  match x with
  | S754_zero s' | S754_infinity s' | S754_finite s' _ _ => s' = s
  | S754_nan => False
  end.

(** ** One-dimensional arrays *)

Definition zeros_like (a : list float) : list float := replicate (length a) 0.

(** [a op b] on two arrays of one length. *)
Definition vadd (a b : list float) : list float := zip_with add a b.
Definition vdiv (a b : list float) : list float := zip_with div a b.

(** [k op a] and [a op k] for a scalar [k]. *)
Definition smul (k : float) (a : list float) : list float := (fun x => k * x) <$> a.
Definition vdivs (a : list float) (k : float) : list float := (fun x => x / k) <$> a.
Definition vadds (a : list float) (k : float) : list float := (fun x => x + k) <$> a.
Definition vsquare (a : list float) : list float := (fun x => x * x) <$> a.
Definition vsqrt (a : list float) : list float := sqrt <$> a.

(** [a[k:] /= d] and [a[k:] *= d]. *)
Definition div_from (k : nat) (a : list float) (d : float) : list float :=
  take k a ++ vdivs (drop k a) d.
Definition mul_from (k : nat) (a : list float) (d : float) : list float :=
  take k a ++ ((fun x => x * d) <$> drop k a).

(** Boolean-mask indexing: [a[mask]] keeps the entries whose flag is set;
    [a[mask] = vals] writes [vals], in order, over those entries. *)
Fixpoint take_mask (mask : list bool) (a : list float) : list float :=
  match mask, a with
  | b :: mask', x :: a' => if b then x :: take_mask mask' a' else take_mask mask' a'
  | _, _ => []
  end.

Fixpoint put_mask (mask : list bool) (a vals : list float) : list float :=
  match mask, a with
  | b :: mask', x :: a' =>
      if b then
        match vals with
        | y :: vals' => y :: put_mask mask' a' vals'
        | [] => x :: put_mask mask' a' []
        end
      else x :: put_mask mask' a' vals
  | _, _ => a
  end.

(** [a[mask] -= u[mask]]; NumPy raises [IndexError] unless the mask has the
    length of the array it indexes. *)
Definition masked_sub (a u : list float) (mask : list bool) : option (list float) :=
  if decide (length mask = length a) then
    if decide (length mask = length u) then
      Some (put_mask mask a (zip_with sub (take_mask mask a) (take_mask mask u)))
    else None
  else None.

(** ** Images *)

Record image := Image {
  nrows : nat;
  ncols : nat;
  pixels : list float   (* row-major, [nrows * ncols] entries *)
}.

Definition shape (im : image) : nat * nat := (nrows im, ncols im).

Definition well_shaped (im : image) : Prop :=
  length (pixels im) = (nrows im * ncols im)%nat.

(** [im[r, c]] for integer indices inside the image. *)
Definition pixel (im : image) (r c : nat) : option float :=
  if decide (r < nrows im ∧ c < ncols im)%nat
  then pixels im !! (r * ncols im + c)%nat
  else None.

(** A read at an integer position, with the constant fill value 0 outside. *)
Definition pixel_or_fill (im : image) (r c : Z) : float :=
  if decide (0 <= r ∧ 0 <= c)%Z
  then default 0 (pixel im (Z.to_nat r) (Z.to_nat c))
  else 0.

(** An image whose samples are all numbers (no NaN, no infinity), as the
    normalized intensities of the data model are. *)
Definition finite_image (im : image) : Prop :=
  Forall (fun x => is_finite x = true) (pixels im).

(** A 2x2 matrix and a 2-vector, in (row, column) axis order. *)
Record mat2 := Mat2 { m00 : float; m01 : float; m10 : float; m11 : float }.
Record vec2 := Vec2 { v0 : float; v1 : float }.

Definition mat_scale (m : mat2) (k : float) : mat2 :=
  Mat2 (m00 m * k) (m01 m * k) (m10 m * k) (m11 m * k).
Definition mat_vec (m : mat2) (x : vec2) : vec2 :=
  Vec2 (m00 m * v0 x + m01 m * v1 x) (m10 m * v0 x + m11 m * v1 x).
Definition vec_sub (x y : vec2) : vec2 := Vec2 (v0 x - v0 y) (v1 x - v1 y).

(** First-order (bilinear) interpolation of [im] at the real position
    [(y, x)]; a position that is not a number reads the fill value. *)
Definition bilinear (im : image) (y x : float) : float :=
  match ffloor y, ffloor x with
  | Some y0, Some x0 =>
      let fy := y - Z2F y0 in
      let fx := x - Z2F x0 in
      (1 - fy) * (1 - fx) * pixel_or_fill im y0 x0
      + (1 - fy) * fx * pixel_or_fill im y0 (x0 + 1)
      + fy * (1 - fx) * pixel_or_fill im (y0 + 1) x0
      + fy * fx * pixel_or_fill im (y0 + 1) (x0 + 1)
  | _, _ => 0
  end.

(** The source position of the output pixel [(r, c)]: [matrix . (r, c) + offset]. *)
Definition source_coord (matrix : mat2) (offset : vec2) (r c : nat) : vec2 :=
  let o := Vec2 (Z2F (Z.of_nat r)) (Z2F (Z.of_nat c)) in
  let p := mat_vec matrix o in
  Vec2 (v0 p + v0 offset) (v1 p + v1 offset).

(** Modelled from the spec: [scipy.ndimage.affine_transform] with [order=1],
    [mode='constant'], [cval=0.0], which is library code outside the
    repository.  The specification describes it as inverse mapping: for every
    output pixel the source position is computed with the matrix and the
    offset, the input is sampled there by first-order interpolation, and
    samples outside the input read the constant 0.  The output has the shape
    of the input. *)
Definition affine_transform (input : image) (matrix : mat2) (offset : vec2) : image :=
  Image (nrows input) (ncols input)
    (r ← seq 0 (nrows input);
     (fun c => let p := source_coord matrix offset r c in bilinear input (v0 p) (v1 p))
       <$> seq 0 (ncols input)).

(** ** Sample inputs

    Stand-ins for the library functions and small images, used to run the
    definitions on concrete data. *)

Definition sample_zoom (im : image) (factor : float) : image :=
  Image (nrows im / 2) (ncols im / 2)
        (replicate (nrows im / 2 * (ncols im / 2)) 0.5).
Definition sample_cos (x : float) : float := 1 - x * x / 2.
Definition sample_sin (x : float) : float := x.
Definition sample_deg2rad (x : float) : float := x * 0.017453292519943295.

Definition sample_fixed : image := Image 2 2 [0.25; 0.5; 0.75; 1].
Definition sample_moving : image := Image 2 2 [0.5; 0.25; 1; 0.75].
Definition sample_pixel : image := Image 1 1 [0.5].

Section Registration.

(** ** Library functions the program calls *)

Variable zoom : image -> float -> image.
Variables cos sin deg2rad : float -> float.

(** ** Image creation *)

(** The body of the loop of [create_pyramid]:
    [pyramid.append(zoom(pyramid[-1], 0.5))]; the list is never empty. *)
Definition pyramid_step (image0 : image) (pyramid : list image) : list image :=
  pyramid ++ [zoom (default image0 (last pyramid)) 0.5].

(** [create_pyramid(image, levels)]. *)
Definition create_pyramid (image0 : image) (levels : Z) : list image :=
  foldl (fun pyramid _ => pyramid_step image0 pyramid)
        [image0]
        (seq 0 (Z.to_nat (levels - 1))).

(** The invariant of that loop: the list starts with the input image and
    each entry after the first is its predecessor downsampled. *)
Definition pyramid_chain (image0 : image) (pyramid : list image) : Prop :=
  pyramid !! 0%nat = Some image0 /\
  forall i prev, pyramid !! i = Some prev -> (S i < length pyramid)%nat ->
    pyramid !! S i = Some (zoom prev 0.5).

(** The pyramid builder as the specification words it: [levels] entries,
    the first the input image, each next one the previous one downsampled
    by 0.5, and a call with [levels < 1] rejected. *)
Fixpoint pyramid_from (im : image) (n : nat) : list image :=
  match n with
  | O => []
  | S k => im :: pyramid_from (zoom im 0.5) k
  end.

Definition buildPyramid (image0 : image) (levels : Z) : option (list image) :=
  if decide (levels < 1)%Z then None
  else Some (pyramid_from image0 (Z.to_nat levels)).

(** ** Transform *)

(** The inverse scale: [1.0 / s if s != 0 else 1.0]. *)
Definition inverse_scale (s : float) : float :=
  if fne0 s then 1.0 / s else 1.0.

(** [inv_rot_matrix], the rotation by [-theta]. *)
Definition inverse_rotation (theta : float) : mat2 :=
  let theta_rad := deg2rad theta in
  let inv_theta_rad := - theta_rad in
  Mat2 (cos inv_theta_rad) (- sin inv_theta_rad)
       (sin inv_theta_rad) (cos inv_theta_rad).

(** The inverse linear map [inv_rot_matrix * inv_s]. *)
Definition inverse_matrix (s theta : float) : mat2 :=
  let inv_s := inverse_scale s in
  let inv_rot_matrix := inverse_rotation theta in
  mat_scale inv_rot_matrix inv_s.

(** [center - matrix @ center - matrix @ translation]. *)
Definition transform_offset (im : image) (matrix : mat2) (tx ty : float) : vec2 :=
  let center := Vec2 (Z2F (Z.of_nat (nrows im)) / 2.0) (Z2F (Z.of_nat (ncols im)) / 2.0) in
  let translation := Vec2 ty tx in
  vec_sub (vec_sub center (mat_vec matrix center)) (mat_vec matrix translation).

(** [similarity_transform(image, params)]; unpacking [params] raises unless
    it has exactly four entries. *)
Definition similarity_transform (im : image) (params : list float) : option image :=
  match params with
  | [s; theta; tx; ty] =>
      let matrix := inverse_matrix s theta in
      let offset := transform_offset im matrix tx ty in
      Some (affine_transform im matrix offset)
  | _ => None
  end.

(** ** Cost *)

(** [np.sum(a)] over the buffer of [a], the entries added from left to
    right (NumPy may group the additions differently). *)
Definition np_sum (a : list float) : float := foldl add 0 a.

(** [ssd(image1, image2)]: the sum of squared differences.  The subtraction
    raises when the shapes differ (shapes that NumPy would broadcast do not
    occur: every image has the shape of the fixed image). *)
Definition ssd (image1 image2 : image) : option float :=
  if decide (shape image1 = shape image2) then
    Some (np_sum (vsquare (zip_with sub (pixels image1) (pixels image2))))
  else None.

(** ** Optimizer *)

(** The default step [h=1e-5] of [compute_gradient]. *)
Definition default_h : float := 1e-5.

(** [np.copy(params)] followed by [copy[i] += h] (resp. [-= h]). *)
Definition perturb_plus (params : list float) (i : nat) (h : float) : list float :=
  match params !! i with
  | Some x => <[i := x + h]> params
  | None => params
  end.
Definition perturb_minus (params : list float) (i : nat) (h : float) : list float :=
  match params !! i with
  | Some x => <[i := x - h]> params
  | None => params
  end.

(** One pass of the loop body of [compute_gradient], for index [i]. *)
Definition gradient_entry (fixed_image moving_image : image) (params : list float)
    (h : float) (i : nat) : option float :=
  let params_plus := perturb_plus params i h in
  let params_minus := perturb_minus params i h in
  transformed_plus ← similarity_transform moving_image params_plus;
  cost_plus ← ssd fixed_image transformed_plus;
  transformed_minus ← similarity_transform moving_image params_minus;
  cost_minus ← ssd fixed_image transformed_minus;
  Some ((cost_plus - cost_minus) / (2 * h)).

(** The loop [for i in range(len(params))], writing [grad[i]]. *)
Fixpoint gradient_loop (fixed_image moving_image : image) (params : list float)
    (h : float) (indices : list nat) (grad : list float) : option (list float) :=
  match indices with
  | [] => Some grad
  | i :: rest =>
      g ← gradient_entry fixed_image moving_image params h i;
      gradient_loop fixed_image moving_image params h rest (<[i := g]> grad)
  end.

(** [compute_gradient(fixed_image, moving_image, params, h)]. *)
Definition compute_gradient (fixed_image moving_image : image) (params : list float)
    (h : float) : option (list float) :=
  gradient_loop fixed_image moving_image params h
    (seq 0 (length params)) (zeros_like params).

(** The state the loop of [adam_optimizer] carries. *)
Record adam_state := AdamState {
  st_params : list float;
  st_m : list float;
  st_v : list float;
  st_cost_history : list float
}.

(** The quantities one iteration computes from the gradient. *)
Definition moment1 (beta1 : float) (m grad : list float) : list float :=
  vadd (smul beta1 m) (smul (1 - beta1) grad).
Definition moment2 (beta2 : float) (v grad : list float) : list float :=
  vadd (smul beta2 v) (smul (1 - beta2) (vsquare grad)).
Definition bias_correct (beta : float) (t : nat) (x : list float) : list float :=
  vdivs x (1 - fpow beta t).
Definition adam_update (learning_rate epsilon : float) (m_hat v_hat : list float)
    : list float :=
  vdiv (smul learning_rate m_hat) (vadds (vsqrt v_hat) epsilon).

(** The body of the loop of [adam_optimizer] at iteration [t]. *)
Definition adam_step (fixed_image moving_image : image) (learning_rate : float)
    (trainable_params : list bool) (beta1 beta2 epsilon : float)
    (t : nat) (st : adam_state) : option adam_state :=
  transformed_moving ← similarity_transform moving_image (st_params st);
  cost ← ssd fixed_image transformed_moving;
  grad ← compute_gradient fixed_image moving_image (st_params st) default_h;
  let m := moment1 beta1 (st_m st) grad in
  let v := moment2 beta2 (st_v st) grad in
  let m_hat := bias_correct beta1 t m in
  let v_hat := bias_correct beta2 t v in
  let update := adam_update learning_rate epsilon m_hat v_hat in
  params ← masked_sub (st_params st) update trainable_params;
  Some (AdamState params m v (st_cost_history st ++ [cost])).

(** The loop [for t in range(1, num_iterations + 1)]. *)
Fixpoint adam_loop (fixed_image moving_image : image) (learning_rate : float)
    (trainable_params : list bool) (beta1 beta2 epsilon : float)
    (ts : list nat) (st : adam_state) : option adam_state :=
  match ts with
  | [] => Some st
  | t :: rest =>
      st' ← adam_step fixed_image moving_image learning_rate trainable_params
              beta1 beta2 epsilon t st;
      adam_loop fixed_image moving_image learning_rate trainable_params
        beta1 beta2 epsilon rest st'
  end.

Definition adam_init (initial_params : list float) : adam_state :=
  AdamState initial_params (zeros_like initial_params) (zeros_like initial_params) [].

(** [adam_optimizer(fixed_image, moving_image, initial_params, learning_rate,
    num_iterations, trainable_params, beta1, beta2, epsilon)]. *)
Definition adam_optimizer (fixed_image moving_image : image)
    (initial_params : list float) (learning_rate : float) (num_iterations : Z)
    (trainable_params : list bool) (beta1 beta2 epsilon : float)
    : option (list float * list float) :=
  st ← adam_loop fixed_image moving_image learning_rate trainable_params
         beta1 beta2 epsilon
         (seq 1 (Z.to_nat num_iterations)) (adam_init initial_params);
  Some (st_params st, st_cost_history st).

(** The defaults [beta1=0.9, beta2=0.999, epsilon=1e-8]. *)
Definition default_beta1 : float := 0.9.
Definition default_beta2 : float := 0.999.
Definition default_epsilon : float := 1e-8.

(** The arrays of a state all have four entries. *)
Definition adam_wf (st : adam_state) : Prop :=
  length (st_params st) = 4%nat /\ length (st_m st) = 4%nat /\ length (st_v st) = 4%nat.

(** The state after [k] iterations of a call. *)
Definition adam_state_at (fixed_image moving_image : image)
    (initial_params : list float) (learning_rate : float)
    (trainable_params : list bool) (beta1 beta2 epsilon : float) (k : nat)
    : option adam_state :=
  adam_loop fixed_image moving_image learning_rate trainable_params
    beta1 beta2 epsilon (seq 1 k) (adam_init initial_params).


(** ** Registration driver *)

(** [range(num_pyramid_levels - 1, -1, -1)]: coarsest level first. *)
Definition level_schedule (num_pyramid_levels : nat) : list nat :=
  rev (seq 0 num_pyramid_levels).

(** The body of the loop over pyramid levels; the accumulator holds
    [optimal_params] and [cost_history]. *)
Definition register_level (fixed_pyramid moving_pyramid : list image)
    (level : nat) (acc : list float * list float)
    : option (list float * list float) :=
  let '(optimal_params, cost_history) := acc in
  fixed_level ← fixed_pyramid !! level;
  moving_level ← moving_pyramid !! level;
  let scale_factor := (2 ^ Z.of_nat level)%Z in
  let current_params := div_from 2 optimal_params (Z2F scale_factor) in
  let learning_rate := 0.1 in
  let num_iterations := 300%Z in
  '(current_params', history) ←
    adam_optimizer fixed_level moving_level current_params learning_rate
      num_iterations [true; true; true; true]
      default_beta1 default_beta2 default_epsilon;
  let optimal_params' := mul_from 2 current_params' (Z2F scale_factor) in
  Some (optimal_params', cost_history ++ history).

Fixpoint register_levels (fixed_pyramid moving_pyramid : list image)
    (levels : list nat) (acc : list float * list float)
    : option (list float * list float) :=
  match levels with
  | [] => Some acc
  | level :: rest =>
      acc' ← register_level fixed_pyramid moving_pyramid level acc;
      register_levels fixed_pyramid moving_pyramid rest acc'
  end.

(** The main block, from the preprocessed images to the optimized
    parameters, the cost history and the registered image. *)
Definition register (fixed_image moving_image : image)
    : option (list float * list float * image) :=
  let num_pyramid_levels := 5%nat in
  let fixed_pyramid := create_pyramid fixed_image (Z.of_nat num_pyramid_levels) in
  let moving_pyramid := create_pyramid moving_image (Z.of_nat num_pyramid_levels) in
  '(optimal_params, cost_history) ←
    register_levels fixed_pyramid moving_pyramid
      (level_schedule num_pyramid_levels) ([1.0; 0.0; 0.0; 0.0], []);
  corregistred_image ← similarity_transform moving_image optimal_params;
  Some (optimal_params, cost_history, corregistred_image).

(** ** The store: arrays as mutable objects

    The functions above work on array values.  NumPy arrays are objects: a
    callee that writes into an array writes into its caller's array.  The
    definitions below follow the same code over a store of arrays, where
    every name holds a reference; they decide what a call leaves in the
    arrays of its caller. *)

Definition loc := nat.
Definition heap := list (list float).
Definition M (A : Type) : Type := heap -> option (A * heap).

#[local] Instance M_ret : MRet M := fun A a h => Some (a, h).
#[local] Instance M_bind : MBind M := fun A B k c h =>
  match c h with
  | Some (a, h') => k a h'
  | None => None
  end.

(** A pure computation that may raise. *)
Definition lift {A : Type} (o : option A) : M A := fun h =>
  match o with
  | Some a => Some (a, h)
  | None => None
  end.

(** A new array holding the value of an expression. *)
Definition alloc (a : list float) : M loc := fun h => Some (length h, h ++ [a]).

(** The contents of the array at [l]. *)
Definition read (l : loc) : M (list float) := fun h => lift (h !! l) h.

(** [np.copy(l)] and [np.zeros_like(l)]. *)
Definition np_copy (l : loc) : M loc := a ← read l; alloc a.
Definition np_zeros_like (l : loc) : M loc := a ← read l; alloc (zeros_like a).

(** [l[i] = x], [l[i] += x], [l[i] -= x]: writes into the array at [l];
    an index outside the array raises. *)
Definition store_at (l : loc) (i : nat) (x : float) : M unit := fun h =>
  match h !! l with
  | Some a => if decide (i < length a)%nat then Some (tt, <[l := <[i := x]> a]> h) else None
  | None => None
  end.
Definition iadd_at (l : loc) (i : nat) (x : float) : M unit :=
  a ← read l; y ← lift (a !! i); store_at l i (y + x).
Definition isub_at (l : loc) (i : nat) (x : float) : M unit :=
  a ← read l; y ← lift (a !! i); store_at l i (y - x).

(** [l[mask] -= u[mask]]: writes into the array at [l]. *)
Definition isub_mask (l u : loc) (mask : list bool) : M unit := fun h =>
  match h !! l, h !! u with
  | Some a, Some b =>
      match masked_sub a b mask with
      | Some a' => Some (tt, <[l := a']> h)
      | None => None
      end
  | _, _ => None
  end.

(** The body of the loop of [compute_gradient] over the store. *)
Definition gradient_body_st (fixed_image moving_image : image) (params grad : loc)
    (h : float) (i : nat) : M unit :=
  params_plus ← np_copy params;
  iadd_at params_plus i h;;
  params_minus ← np_copy params;
  isub_at params_minus i h;;
  pp ← read params_plus;
  transformed_plus ← lift (similarity_transform moving_image pp);
  cost_plus ← lift (ssd fixed_image transformed_plus);
  pm ← read params_minus;
  transformed_minus ← lift (similarity_transform moving_image pm);
  cost_minus ← lift (ssd fixed_image transformed_minus);
  store_at grad i ((cost_plus - cost_minus) / (2 * h)).

Fixpoint gradient_loop_st (fixed_image moving_image : image) (params grad : loc)
    (h : float) (indices : list nat) : M unit :=
  match indices with
  | [] => mret tt
  | i :: rest =>
      gradient_body_st fixed_image moving_image params grad h i;;
      gradient_loop_st fixed_image moving_image params grad h rest
  end.

(** [compute_gradient] over the store: [params] is the caller's array. *)
Definition compute_gradient_st (fixed_image moving_image : image) (params : loc)
    (h : float) : M loc :=
  grad ← np_zeros_like params;
  a ← read params;
  gradient_loop_st fixed_image moving_image params grad h (seq 0 (length a));;
  mret grad.

(** The body of the loop of [adam_optimizer] over the store; [m] and [v]
    are rebound to new arrays, [params] is written in place. *)
Definition adam_body_st (fixed_image moving_image : image) (learning_rate : float)
    (trainable_params : list bool) (beta1 beta2 epsilon : float) (params : loc)
    (t : nat) (st : loc * loc * list float) : M (loc * loc * list float) :=
  let '(m, v, cost_history) := st in
  p ← read params;
  transformed_moving ← lift (similarity_transform moving_image p);
  cost ← lift (ssd fixed_image transformed_moving);
  grad ← compute_gradient_st fixed_image moving_image params default_h;
  g ← read grad;
  m_old ← read m;
  m' ← alloc (moment1 beta1 m_old g);
  v_old ← read v;
  v' ← alloc (moment2 beta2 v_old g);
  m_new ← read m';
  m_hat ← alloc (bias_correct beta1 t m_new);
  v_new ← read v';
  v_hat ← alloc (bias_correct beta2 t v_new);
  mh ← read m_hat;
  vh ← read v_hat;
  update ← alloc (adam_update learning_rate epsilon mh vh);
  isub_mask params update trainable_params;;
  mret (m', v', cost_history ++ [cost]).

Fixpoint adam_loop_st (fixed_image moving_image : image) (learning_rate : float)
    (trainable_params : list bool) (beta1 beta2 epsilon : float) (params : loc)
    (ts : list nat) (st : loc * loc * list float) : M (loc * loc * list float) :=
  match ts with
  | [] => mret st
  | t :: rest =>
      st' ← adam_body_st fixed_image moving_image learning_rate trainable_params
              beta1 beta2 epsilon params t st;
      adam_loop_st fixed_image moving_image learning_rate trainable_params
        beta1 beta2 epsilon params rest st'
  end.

(** [adam_optimizer] over the store: [initial_params] is the caller's array;
    the result is the reference held by [params]. *)
Definition adam_optimizer_st (fixed_image moving_image : image)
    (initial_params : loc) (learning_rate : float) (num_iterations : Z)
    (trainable_params : list bool) (beta1 beta2 epsilon : float)
    : M (loc * list float) :=
  params ← np_copy initial_params;
  m ← np_zeros_like params;
  v ← np_zeros_like params;
  '(_, _, cost_history) ←
    adam_loop_st fixed_image moving_image learning_rate trainable_params
      beta1 beta2 epsilon params (seq 1 (Z.to_nat num_iterations)) (m, v, []);
  mret (params, cost_history).

(** * Properties *)

(** ** Rounding keeps the sign *)

Lemma shr_1_nonneg mrs : (0 <= shr_m mrs)%Z -> (0 <= shr_m (shr_1 mrs))%Z.
Proof.
  destruct mrs as [m r s]; simpl.
  destruct m as [|[p|p|]|[p|p|]]; simpl; lia.
Qed.

Lemma iter_pos_shr_1_nonneg n : forall mrs,
  (0 <= shr_m mrs)%Z -> (0 <= shr_m (SpecFloat.iter_pos shr_1 n mrs))%Z.
Proof.
  induction n as [n IH|n IH|]; intros mrs H; simpl.
  - apply IH, IH, shr_1_nonneg, H.
  - apply IH, IH, H.
  - apply shr_1_nonneg, H.
Qed.

Lemma shr_nonneg mrs e n : (0 <= shr_m mrs)%Z -> (0 <= shr_m (fst (shr mrs e n)))%Z.
Proof.
  intros H. destruct n; simpl; auto using iter_pos_shr_1_nonneg.
Qed.

Lemma shr_record_of_loc_m m l : shr_m (shr_record_of_loc m l) = m.
Proof. destruct l as [|[]]; reflexivity. Qed.

Lemma shr_fexp_nonneg pr em m e l :
  (0 <= m)%Z -> (0 <= shr_m (fst (shr_fexp pr em m e l)))%Z.
Proof.
  intros H. unfold shr_fexp. apply shr_nonneg. now rewrite shr_record_of_loc_m.
Qed.

Lemma round_nearest_even_nonneg m l : (0 <= m)%Z -> (0 <= round_nearest_even m l)%Z.
Proof. intros H. destruct l as [|[]]; simpl; try lia. destruct (Z.even m); lia. Qed.

Lemma binary_round_aux_signed pr em s m e l :
  (0 <= m)%Z -> SFsigned s (binary_round_aux pr em s m e l).
Proof.
  intros H. unfold binary_round_aux.
  pose proof (shr_fexp_nonneg pr em m e l H) as H1.
  destruct (shr_fexp pr em m e l) as [mrs' e'] eqn:E1. simpl in H1.
  pose proof (shr_fexp_nonneg pr em _ e' loc_Exact
      (round_nearest_even_nonneg _ (loc_of_shr_record mrs') H1)) as H2.
  destruct (shr_fexp pr em (round_nearest_even _ _) e' loc_Exact) as [mrs'' e''] eqn:E2.
  simpl in H2.
  destruct (shr_m mrs'') as [|p|p]; simpl; try lia; auto.
  destruct (e'' <=? em - pr)%Z; simpl; auto.
Qed.




Lemma SFsub_diag pr em x : SFfinite x = true -> SFsub pr em x x = S754_zero false.
Proof.
  destruct x as [[]|s| |s m e]; simpl; try discriminate; auto.
  intros _. now rewrite Z.sub_diag.
Qed.




(** ** Floats: the sign of sums and squares *)

Lemma fsub_diag x : is_finite x = true -> x - x = 0.
Proof.
  intros H. apply Prim2SF_inj. rewrite sub_spec.
  unfold SF64sub. now rewrite SFsub_diag.
Qed.









(** ** Rounding a positive number never gives zero *)

Lemma digits2_pos_bounds m :
  (2 ^ (Zpos (digits2_pos m) - 1) <= Zpos m < 2 ^ Zpos (digits2_pos m))%Z.
Proof.
  induction m as [p IH|p IH|]; simpl digits2_pos.
  - rewrite Pos2Z.inj_succ, Z.pow_succ_r by lia.
    replace (Z.succ (Zpos (digits2_pos p)) - 1)%Z with (Z.succ (Zpos (digits2_pos p) - 1)) by lia.
    rewrite Z.pow_succ_r by lia. lia.
  - rewrite Pos2Z.inj_succ, Z.pow_succ_r by lia.
    replace (Z.succ (Zpos (digits2_pos p)) - 1)%Z with (Z.succ (Zpos (digits2_pos p) - 1)) by lia.
    rewrite Z.pow_succ_r by lia. lia.
  - simpl. lia.
Qed.












(** ** Powers of the default decay rates *)






(** ** Operations that are exact *)

(** Rounding a number that already is a float of the format. *)
Lemma binary_round_aux_canonical pr em s m e :
  bounded pr em m e = true ->
  binary_round_aux pr em s (Zpos m) e loc_Exact = S754_finite s m e.
Proof.
  unfold bounded, canonical_mantissa. intros H.
  apply andb_prop in H as [Hc He]. apply Z.eqb_eq in Hc.
  unfold binary_round_aux, shr_fexp. simpl Zdigits2.
  rewrite Hc, Z.sub_diag. simpl. rewrite Hc, Z.sub_diag. simpl.
  now rewrite He.
Qed.

Lemma digits2_pos_iter_xO p k :
  Zpos (digits2_pos (Pos.iter xO p k)) = (Zpos (digits2_pos p) + Zpos k)%Z.
Proof.
  induction k as [|k IH] using Pos.peano_ind.
  - simpl. lia.
  - rewrite Pos.iter_succ. simpl digits2_pos. lia.
Qed.

Lemma Zpos_iter_xO p k : Zpos (Pos.iter xO p k) = (Zpos p * 2 ^ Zpos k)%Z.
Proof.
  induction k as [|k IH] using Pos.peano_ind.
  - simpl. lia.
  - rewrite Pos.iter_succ, Pos2Z.inj_xO, IH, Pos2Z.inj_succ, Z.pow_succ_r by lia. ring.
Qed.

(** The conversion of a positive integer below [2^53] is exact. *)
Lemma binary_normalize_exact p :
  (Zpos p < 2 ^ 53)%Z ->
  exists m e,
    binary_normalize prec emax (Zpos p) 0 false = S754_finite false m e /\
    Zpos (digits2_pos m) = 53%Z /\ (-52 <= e <= 0)%Z /\
    Zpos m = (Zpos p * 2 ^ (- e))%Z.
Proof.
  intros Hp. pose proof (digits2_pos_bounds p) as [Hlo Hhi].
  assert (Hd : (Zpos (digits2_pos p) <= 53)%Z).
  { destruct (Z_le_gt_dec (Zpos (digits2_pos p)) 53) as [|Hgt]; [assumption|exfalso].
    assert ((2 ^ 53 <= 2 ^ (Zpos (digits2_pos p) - 1))%Z)
      by (apply Z.pow_le_mono_r; lia). lia. }
  unfold binary_normalize, binary_round, shl_align.
  rewrite Z.add_0_r. unfold fexp, SpecFloat.emin, prec, emax.
  rewrite Z.max_l by lia. rewrite Z.sub_0_r.
  destruct (Zpos (digits2_pos p) - 53)%Z as [|k|k] eqn:Ek; try lia.
  - exists p, 0%Z. split.
    + apply binary_round_aux_canonical.
      unfold bounded, canonical_mantissa, fexp, SpecFloat.emin.
      apply andb_true_intro. split; [apply Z.eqb_eq|apply Z.leb_le]; lia.
    + repeat split; try lia.
  - exists (Pos.iter xO p k), (Zneg k). split.
    + apply binary_round_aux_canonical.
      unfold bounded, canonical_mantissa, fexp, SpecFloat.emin.
      rewrite digits2_pos_iter_xO.
      apply andb_true_intro. split; [apply Z.eqb_eq|apply Z.leb_le]; lia.
    + rewrite digits2_pos_iter_xO, Zpos_iter_xO. repeat split; try lia.
Qed.

Lemma Z2F_exact n :
  (0 < n < 2 ^ 53)%Z ->
  exists m e,
    Prim2SF (Z2F n) = S754_finite false m e /\
    Zpos (digits2_pos m) = 53%Z /\ (-52 <= e <= 0)%Z /\
    Zpos m = (n * 2 ^ (- e))%Z.
Proof.
  intros Hn. unfold Z2F. destruct (Z.ltb_spec n 0) as [|_]; [lia|].
  rewrite of_uint63_spec, Uint63.of_Z_spec.
  rewrite Z.mod_small by (change wB with (2 ^ 63)%Z; split; [lia|];
    apply Z.lt_trans with (2 ^ 53)%Z; [lia|reflexivity]).
  destruct n as [|p|p]; try lia.
  apply binary_normalize_exact. lia.
Qed.

Lemma SFfloor_exact m e n :
  (e <= 0)%Z -> Zpos m = (n * 2 ^ (- e))%Z ->
  SFfloor (S754_finite false m e) = Some n.
Proof.
  intros He Hm. simpl. f_equal.
  rewrite Z.shiftl_div_pow2 by lia. rewrite Hm.
  apply Z.div_mul. apply Z.pow_nonzero; lia.
Qed.

(** [1 * x = x] for every float. *)
Lemma SFmul_1_l x :
  valid_binary x = true -> SF64mul (Prim2SF 1) x = x.
Proof.
  change (Prim2SF 1) with (S754_finite false 4503599627370496 (-52)).
  destruct x as [s|s| |s m e]; try reflexivity.
  unfold SF64mul, SFmul. cbn [valid_binary xorb]. intros Hb.
  pose proof Hb as Hb'. unfold bounded, canonical_mantissa in Hb'.
  apply andb_prop in Hb' as [Hc He]. apply Z.eqb_eq in Hc. apply Z.leb_le in He.
  change (4503599627370496 * m)%positive with (Pos.iter xO m 52).
  unfold binary_round_aux, shr_fexp.
  change (Zdigits2 (Z.pos (Pos.iter xO m 52)))
    with (Zpos (digits2_pos (Pos.iter xO m 52))).
  rewrite digits2_pos_iter_xO.
  replace (Zpos (digits2_pos m) + 52 + (-52 + e))%Z
    with (Zpos (digits2_pos m) + e)%Z by lia.
  rewrite Hc. replace (e - (-52 + e))%Z with 52%Z by lia.
  cbn [shr shr_record_of_loc SpecFloat.iter_pos shr_1 Pos.iter shr_m shr_r shr_s
       loc_of_shr_record round_nearest_even orb Zdigits2].
  replace (-52 + e + 52)%Z with e by lia.
  rewrite Hc, Z.sub_diag.
  cbn [shr shr_record_of_loc shr_m].
  destruct (e <=? emax - prec)%Z eqn:E; [reflexivity|].
  apply Z.leb_gt in E. lia.
Qed.

Lemma fmul_1_l x : 1 * x = x.
Proof.
  apply Prim2SF_inj. rewrite mul_spec. apply SFmul_1_l, Prim2SF_valid.
Qed.

Lemma div_eucl_pow2 (m : positive) :
  Z.div_eucl (Z.shiftl (Zpos m) 53) 4503599627370496 = (Zpos m~0, 0%Z).
Proof.
  rewrite Z.shiftl_mul_pow2 by lia. change (2 ^ 53)%Z with 9007199254740992%Z.
  pose proof (Z_div_mod (Zpos m * 9007199254740992) 4503599627370496 eq_refl) as H.
  destruct (Z.div_eucl _ _) as [q r]. destruct H as [H1 H2].
  f_equal; lia.
Qed.

(** Halving the float of a positive integer below [2^53] is exact. *)
Lemma SFdiv_2_exact m e :
  Zpos (digits2_pos m) = 53%Z -> (-52 <= e <= 0)%Z ->
  SF64div (S754_finite false m e) (Prim2SF 2) = S754_finite false m (e - 1).
Proof.
  intros Hd He.
  change (Prim2SF 2) with (S754_finite false 4503599627370496 (-51)).
  unfold SF64div, SFdiv, SFdiv_core_binary.
  change (Zdigits2 (Z.pos m)) with (Zpos (digits2_pos m)). rewrite Hd.
  change (Zdigits2 4503599627370496) with 53%Z.
  replace (Z.min (fexp prec emax (53 + e - (53 + -51))) (e - -51)) with (e - 2)%Z
    by (unfold fexp, SpecFloat.emin, prec, emax; lia).
  replace (e - -51 - (e - 2))%Z with 53%Z by lia.
  rewrite div_eucl_pow2.
  change (new_location 4503599627370496 0) with loc_Exact.
  cbn [xorb].
  unfold binary_round_aux, shr_fexp.
  change (Zdigits2 (Z.pos m~0)) with (Zpos (Pos.succ (digits2_pos m))).
  rewrite Pos2Z.inj_succ, Hd.
  replace (fexp prec emax (Z.succ 53 + (e - 2)) - (e - 2))%Z with 1%Z
    by (unfold fexp, SpecFloat.emin, prec, emax; lia).
  cbn [shr shr_record_of_loc SpecFloat.iter_pos shr_1 shr_m shr_r shr_s
       loc_of_shr_record round_nearest_even orb].
  change (Zdigits2 (Z.pos m)) with (Zpos (digits2_pos m)). rewrite Hd.
  replace (fexp prec emax (53 + (e - 2 + 1)) - (e - 2 + 1))%Z with 0%Z
    by (unfold fexp, SpecFloat.emin, prec, emax; lia).
  cbn [shr shr_record_of_loc shr_m].
  replace (e - 2 + 1)%Z with (e - 1)%Z by lia.
  destruct (e - 1 <=? emax - prec)%Z eqn:E; [reflexivity|].
  apply Z.leb_gt in E. unfold prec, emax in E. lia.
Qed.

(** ** Sums and products with zeros and ones *)

Lemma fplain_finite x : fplain x = true -> is_finite x = true.
Proof. unfold fplain, is_finite. now destruct (Prim2SF x) as [[]|[]| |[] m e]. Qed.

Lemma fmul_0_plain x : fplain x = true -> 0 * x = 0.
Proof.
  unfold fplain. intros H. apply Prim2SF_inj. rewrite mul_spec.
  change (Prim2SF 0) with (S754_zero false).
  now destruct (Prim2SF x) as [[]|[]| |[] m e].
Qed.

Lemma fmul_n0_plain x : fplain x = true -> (- 0) * x = - 0.
Proof.
  unfold fplain. intros H. apply Prim2SF_inj. rewrite mul_spec.
  change (Prim2SF (- 0)) with (S754_zero true).
  now destruct (Prim2SF x) as [[]|[]| |[] m e].
Qed.

Lemma fadd_0_r_plain x : fplain x = true -> x + 0 = x.
Proof.
  unfold fplain. intros H. apply Prim2SF_inj. rewrite add_spec.
  change (Prim2SF 0) with (S754_zero false).
  now destruct (Prim2SF x) as [[]|[]| |[] m e].
Qed.

Lemma fadd_n0_l_plain x : fplain x = true -> (- 0) + x = x.
Proof.
  unfold fplain. intros H. apply Prim2SF_inj. rewrite add_spec.
  change (Prim2SF (- 0)) with (S754_zero true).
  now destruct (Prim2SF x) as [[]|[]| |[] m e].
Qed.

Lemma fmul_0_finite x : is_finite x = true -> fzero (0 * x) = true.
Proof.
  unfold is_finite, fzero. intros H. rewrite mul_spec.
  change (Prim2SF 0) with (S754_zero false).
  now destruct (Prim2SF x) as [[]|[]| |[] m e].
Qed.

(** Adding a zero to a number other than [-0] leaves it as it is. *)
Lemma fadd_zero_r x z :
  is_finite x = true -> Prim2SF x <> S754_zero true -> fzero z = true -> x + z = x.
Proof.
  unfold is_finite, fzero. intros Hx Hn Hz. apply Prim2SF_inj. rewrite add_spec.
  destruct (Prim2SF z) as [sz| | |]; try discriminate.
  destruct (Prim2SF x) as [[]|[]| |[] m e]; try discriminate; try reflexivity.
  - congruence.
  - now destruct sz.
Qed.

Lemma fadd_zero_zero x z : fzero x = true -> fzero z = true -> fzero (x + z) = true.
Proof.
  unfold fzero. rewrite add_spec.
  destruct (Prim2SF x) as [[]| | |]; try discriminate;
    destruct (Prim2SF z) as [[]| | |]; try discriminate; reflexivity.
Qed.

Lemma SFeqb_refl x : SFfinite x = true -> SFeqb x x = true.
Proof.
  destruct x as [s|s| |s m e]; try discriminate; intros _; unfold SFeqb; simpl.
  - reflexivity.
  - rewrite Z.compare_refl, Pos.compare_cont_refl. now destruct s.
Qed.

Lemma fzero_eqb x y : fzero x = true -> fzero y = true -> (x =? y) = true.
Proof.
  unfold fzero. rewrite FloatAxioms.eqb_spec.
  destruct (Prim2SF x) as [[]| | |]; try discriminate;
    destruct (Prim2SF y) as [[]| | |]; try discriminate; reflexivity.
Qed.

Lemma feqb_refl x : is_finite x = true -> (x =? x) = true.
Proof. intros H. rewrite FloatAxioms.eqb_spec. now apply SFeqb_refl. Qed.

(** ** Pixel indices as floats *)

Lemma Z2F_nat_spec (r : nat) :
  (Z.of_nat r < 2 ^ 53)%Z ->
  fplain (Z2F (Z.of_nat r)) = true /\ ffloor (Z2F (Z.of_nat r)) = Some (Z.of_nat r).
Proof.
  intros Hr. destruct r as [|r]; [split; reflexivity|].
  destruct (Z2F_exact (Z.of_nat (S r))) as (m & e & Hm & _ & He & Hv); [lia|].
  unfold fplain, ffloor. rewrite Hm. split; [reflexivity|].
  apply SFfloor_exact; [lia|exact Hv].
Qed.

(** Half of a dimension below [2^53]. *)
Lemma center_plain (n : nat) :
  (0 < Z.of_nat n < 2 ^ 53)%Z -> fplain (Z2F (Z.of_nat n) / 2) = true.
Proof.
  intros Hn. destruct (Z2F_exact (Z.of_nat n) Hn) as (m & e & Hm & Hd & He & _).
  unfold fplain. rewrite div_spec, Hm, SFdiv_2_exact by assumption. reflexivity.
Qed.

(** ** The cost function *)



(** ** The pyramid builder *)

Lemma pyramid_chain_step image0 pyramid :
  pyramid_chain image0 pyramid -> pyramid_chain image0 (pyramid_step image0 pyramid).
Proof.
  intros [H0 Hc]. unfold pyramid_step.
  assert (Hne : (0 < length pyramid)%nat) by (apply lookup_lt_Some in H0; exact H0).
  split.
  - now rewrite lookup_app_l.
  - intros i prev Hi Hlt. rewrite length_app in Hlt. simpl in Hlt.
    destruct (decide (S i < length pyramid)%nat) as [Hin|Hout].
    + rewrite lookup_app_l in Hi by lia. rewrite lookup_app_l by lia. now apply Hc.
    + assert (Hi' : S i = length pyramid) by lia.
      rewrite lookup_app_l in Hi by lia.
      rewrite Hi', lookup_app_r, Nat.sub_diag by lia. simpl. do 2 f_equal.
      rewrite last_lookup. replace (Nat.pred (length pyramid)) with i by lia.
      now rewrite Hi.
Qed.

Lemma pyramid_loop_chain image0 (l : list nat) : forall pyramid,
  pyramid_chain image0 pyramid ->
  let result := foldl (fun pyramid _ => pyramid_step image0 pyramid) pyramid l in
  pyramid_chain image0 result /\ length result = (length pyramid + length l)%nat.
Proof.
  induction l as [|x l IH]; intros pyramid H; simpl.
  - split; [exact H|lia].
  - destruct (IH _ (pyramid_chain_step _ _ H)) as [Hc Hl].
    split; [exact Hc|].
    rewrite Hl. unfold pyramid_step. rewrite length_app. simpl. lia.
Qed.

Lemma create_pyramid_chain image0 levels :
  pyramid_chain image0 (create_pyramid image0 levels) /\
  length (create_pyramid image0 levels) = S (Z.to_nat (levels - 1)).
Proof.
  unfold create_pyramid.
  destruct (pyramid_loop_chain image0 (seq 0 (Z.to_nat (levels - 1))) [image0]) as [Hc Hl].
  - split; [reflexivity|]. intros i prev _ Hlt. simpl in Hlt. lia.
  - split; [exact Hc|]. rewrite Hl, length_seq. reflexivity.
Qed.

(** The loop builds the pyramid the specification describes. *)
Lemma pyramid_from_length n : forall im, length (pyramid_from im n) = n.
Proof. induction n as [|n IH]; intros im; simpl; [reflexivity|now rewrite IH]. Qed.

Lemma pyramid_from_chain n : forall im (i : nat) (prev : image),
  pyramid_from im n !! i = Some prev -> (S i < n)%nat ->
  pyramid_from im n !! S i = Some (zoom prev 0.5).
Proof.
  induction n as [|n IH]; intros im i prev Hi Hlt; [lia|].
  destruct i as [|i]; simpl in Hi.
  - injection Hi as <-. destruct n as [|n]; [lia|reflexivity].
  - simpl. apply IH; [exact Hi|lia].
Qed.

Lemma pyramid_chain_unique image0 (l1 l2 : list image) :
  pyramid_chain image0 l1 -> pyramid_chain image0 l2 -> length l1 = length l2 ->
  l1 = l2.
Proof.
  intros [H1 C1] [H2 C2] Hlen. apply list_eq. intros i.
  induction i as [|i IH]; [congruence|].
  destruct (decide (S i < length l1)%nat) as [Hlt|Hge].
  - destruct (lookup_lt_is_Some_2 l1 i) as [prev Hp]; [lia|].
    rewrite (C1 i prev Hp Hlt). symmetry. apply C2; [congruence|lia].
  - rewrite !lookup_ge_None_2 by lia. reflexivity.
Qed.

Lemma create_pyramid_refines image0 levels :
  (1 <= levels)%Z -> buildPyramid image0 levels = Some (create_pyramid image0 levels).
Proof.
  intros Hl. unfold buildPyramid. rewrite decide_False by lia. f_equal.
  destruct (create_pyramid_chain image0 levels) as [Hc Hlen].
  apply (pyramid_chain_unique image0); [|exact Hc|].
  - split.
    + destruct (Z.to_nat levels) as [|n] eqn:E; [lia|reflexivity].
    + intros i prev Hi Hlt. rewrite pyramid_from_length in Hlt.
      now apply pyramid_from_chain.
  - rewrite pyramid_from_length, Hlen. lia.
Qed.

(** C9: for [levels >= 1] the pyramid has [levels] entries, entry 0 is the
    input image, and every later entry is the one before it downsampled by
    0.5. *)
Theorem create_pyramid_levels image0 levels :
  (1 <= levels)%Z ->
  Z.of_nat (length (create_pyramid image0 levels)) = levels /\
  create_pyramid image0 levels !! 0%nat = Some image0 /\
  forall i, (Z.of_nat i + 1 < levels)%Z ->
    exists prev, create_pyramid image0 levels !! i = Some prev /\
                 create_pyramid image0 levels !! S i = Some (zoom prev 0.5).
Proof.
  intros Hl. destruct (create_pyramid_chain image0 levels) as [[H0 Hc] Hlen].
  split; [rewrite Hlen; lia|]. split; [exact H0|].
  intros i Hi.
  destruct (lookup_lt_is_Some_2 (create_pyramid image0 levels) i) as [prev Hp];
    [rewrite Hlen; lia|].
  exists prev. split; [exact Hp|]. apply Hc; [exact Hp|]. rewrite Hlen. lia.
Qed.

(** C6, as the code has it: a call with [levels < 1] is not rejected; it
    returns the pyramid whose only entry is the input image. *)
Theorem create_pyramid_below_one image0 levels :
  (levels < 1)%Z -> create_pyramid image0 levels = [image0].
Proof.
  intros H. unfold create_pyramid.
  replace (Z.to_nat (levels - 1)) with 0%nat by lia. reflexivity.
Qed.

(** ** The resampler *)

Lemma affine_transform_shape im matrix offset :
  shape (affine_transform im matrix offset) = shape im.
Proof. reflexivity. Qed.

Lemma similarity_transform_four im s theta tx ty :
  similarity_transform im [s; theta; tx; ty] =
  Some (affine_transform im (inverse_matrix s theta)
          (transform_offset im (inverse_matrix s theta) tx ty)).
Proof. reflexivity. Qed.

Lemma similarity_transform_total im params :
  length params = 4%nat ->
  exists out, similarity_transform im params = Some out /\ shape out = shape im.
Proof.
  intros H. destruct params as [|s [|theta [|tx [|ty [|]]]]]; try discriminate H.
  eexists. split; reflexivity.
Qed.

Lemma similarity_transform_shape im params out :
  similarity_transform im params = Some out -> shape out = shape im.
Proof.
  destruct params as [|s [|theta [|tx [|ty [|]]]]]; try discriminate.
  intros [= <-]. reflexivity.
Qed.

(** C7: with [s = 0] the resampler does not fail: the inverse scale is 1
    and the result has the shape of the input; with [s <> 0] the inverse
    scale is [1 / s]. *)
Theorem similarity_transform_zero_scale im s theta tx ty :
  ((s =? 0) = true ->
     inverse_scale s = 1 /\
     exists out,
       similarity_transform im [s; theta; tx; ty] = Some out /\
       shape out = shape im /\
       out = affine_transform im (mat_scale (inverse_rotation theta) 1)
               (transform_offset im (mat_scale (inverse_rotation theta) 1) tx ty))
  /\ ((s =? 0) = false ->
     inverse_scale s = 1 / s /\
     similarity_transform im [s; theta; tx; ty] =
       Some (affine_transform im (mat_scale (inverse_rotation theta) (1 / s))
               (transform_offset im (mat_scale (inverse_rotation theta) (1 / s)) tx ty))).
Proof.
  split; intros Hs.
  - assert (Hi : inverse_scale s = 1) by (unfold inverse_scale, fne0; now rewrite Hs).
    split; [exact Hi|]. eexists. split; [apply similarity_transform_four|].
    split; [reflexivity|]. unfold inverse_matrix. now rewrite Hi.
  - assert (Hi : inverse_scale s = 1 / s) by (unfold inverse_scale, fne0; now rewrite Hs).
    split; [exact Hi|]. rewrite similarity_transform_four.
    unfold inverse_matrix. now rewrite Hi.
Qed.

(** *** The gradient estimator *)

Lemma perturb_plus_lookup (params : list float) i h x :
  params !! i = Some x ->
  perturb_plus params i h !! i = Some (x + h) /\
  (forall j, j <> i -> perturb_plus params i h !! j = params !! j) /\
  length (perturb_plus params i h) = length params.
Proof.
  intros H. unfold perturb_plus. rewrite H.
  split; [apply list_lookup_insert_eq; eapply lookup_lt_Some; eauto|].
  split; [intros j Hj; now apply list_lookup_insert_ne|apply length_insert].
Qed.

Lemma perturb_minus_lookup (params : list float) i h x :
  params !! i = Some x ->
  perturb_minus params i h !! i = Some (x - h) /\
  (forall j, j <> i -> perturb_minus params i h !! j = params !! j) /\
  length (perturb_minus params i h) = length params.
Proof.
  intros H. unfold perturb_minus. rewrite H.
  split; [apply list_lookup_insert_eq; eapply lookup_lt_Some; eauto|].
  split; [intros j Hj; now apply list_lookup_insert_ne|apply length_insert].
Qed.

Lemma perturb_plus_length (params : list float) i h :
  length (perturb_plus params i h) = length params.
Proof. unfold perturb_plus. destruct (params !! i); [apply length_insert|reflexivity]. Qed.

Lemma perturb_minus_length (params : list float) i h :
  length (perturb_minus params i h) = length params.
Proof. unfold perturb_minus. destruct (params !! i); [apply length_insert|reflexivity]. Qed.

Lemma ssd_total A B : shape A = shape B -> is_Some (ssd A B).
Proof. intros H. unfold ssd. rewrite decide_True by assumption. eauto. Qed.

(** One entry of the gradient, spelled out. *)
Lemma gradient_entry_total fixed_image moving_image params h i :
  length params = 4%nat -> shape fixed_image = shape moving_image ->
  exists tp tm cp cm,
    similarity_transform moving_image (perturb_plus params i h) = Some tp /\
    ssd fixed_image tp = Some cp /\
    similarity_transform moving_image (perturb_minus params i h) = Some tm /\
    ssd fixed_image tm = Some cm /\
    gradient_entry fixed_image moving_image params h i = Some ((cp - cm) / (2 * h)).
Proof.
  intros Hlen Hshape.
  destruct (similarity_transform_total moving_image (perturb_plus params i h))
    as (tp & Htp & Hsp); [now rewrite perturb_plus_length|].
  destruct (similarity_transform_total moving_image (perturb_minus params i h))
    as (tm & Htm & Hsm); [now rewrite perturb_minus_length|].
  destruct (ssd_total fixed_image tp) as [cp Hcp]; [congruence|].
  destruct (ssd_total fixed_image tm) as [cm Hcm]; [congruence|].
  exists tp, tm, cp, cm. repeat split; auto.
  unfold gradient_entry. rewrite Htp. simpl. rewrite Hcp. simpl.
  rewrite Htm. simpl. rewrite Hcm. reflexivity.
Qed.

(** The loop writes entry [i] for every index it visits and nothing else. *)
Lemma gradient_loop_spec fixed_image moving_image params h indices : forall grad grad',
  NoDup indices ->
  gradient_loop fixed_image moving_image params h indices grad = Some grad' ->
  length grad' = length grad /\
  (forall i, i ∈ indices -> (i < length grad)%nat ->
     exists g, gradient_entry fixed_image moving_image params h i = Some g /\
               grad' !! i = Some g) /\
  (forall j, j ∉ indices -> grad' !! j = grad !! j).
Proof.
  induction indices as [|i rest IH]; intros grad grad' Hnd H; simpl in H.
  - injection H as <-. split; [reflexivity|]. split; [|reflexivity].
    intros i Hi. now apply elem_of_nil in Hi.
  - apply NoDup_cons in Hnd as [Hi Hnd].
    destruct (gradient_entry fixed_image moving_image params h i) as [g|] eqn:Hg;
      simpl in H; [|discriminate].
    destruct (IH _ _ Hnd H) as (Hlen & Hin & Hout).
    rewrite length_insert in Hlen, Hin. split; [exact Hlen|]. split.
    + intros j Hj Hlt. apply elem_of_cons in Hj as [->|Hj].
      * exists g. split; [exact Hg|]. rewrite Hout by exact Hi.
        now apply list_lookup_insert_eq.
      * now apply Hin.
    + intros j Hj. apply not_elem_of_cons in Hj as [Hne Hj].
      rewrite Hout by exact Hj. now apply list_lookup_insert_ne.
Qed.

Lemma gradient_loop_total fixed_image moving_image params h indices : forall grad,
  (forall i, i ∈ indices -> is_Some (gradient_entry fixed_image moving_image params h i)) ->
  is_Some (gradient_loop fixed_image moving_image params h indices grad).
Proof.
  induction indices as [|i rest IH]; intros grad H; simpl; [eauto|].
  destruct (H i) as [g Hg]; [left|]. rewrite Hg. simpl.
  apply IH. intros j Hj. apply H. now right.
Qed.

Lemma compute_gradient_total fixed_image moving_image params h :
  length params = 4%nat -> shape fixed_image = shape moving_image ->
  is_Some (compute_gradient fixed_image moving_image params h).
Proof.
  intros Hlen Hshape. apply gradient_loop_total. intros i _.
  destruct (gradient_entry_total fixed_image moving_image params h i Hlen Hshape)
    as (? & ? & ? & ? & _ & _ & _ & _ & ->). eauto.
Qed.

Lemma compute_gradient_length fixed_image moving_image params h grad :
  compute_gradient fixed_image moving_image params h = Some grad ->
  length grad = length params.
Proof.
  intros H. apply gradient_loop_spec in H as (Hlen & _); [|apply NoDup_seq].
  rewrite Hlen. apply length_replicate.
Qed.

(** C3: the gradient of a 4-vector has its shape, and entry [i] is the
    symmetric difference quotient of the cost at the parameters with entry
    [i] moved by [+h] and by [-h], every other entry kept; the default step
    is 1e-5. *)
Theorem compute_gradient_central_difference fixed_image moving_image params h :
  length params = 4%nat -> shape fixed_image = shape moving_image ->
  default_h = 1e-5 /\
  exists grad,
    compute_gradient fixed_image moving_image params h = Some grad /\
    length grad = length params /\
    forall i x, params !! i = Some x ->
      (perturb_plus params i h !! i = Some (x + h) /\
       perturb_minus params i h !! i = Some (x - h) /\
       forall j, j <> i ->
         perturb_plus params i h !! j = params !! j /\
         perturb_minus params i h !! j = params !! j) /\
      exists tp tm cp cm,
        similarity_transform moving_image (perturb_plus params i h) = Some tp /\
        ssd fixed_image tp = Some cp /\
        similarity_transform moving_image (perturb_minus params i h) = Some tm /\
        ssd fixed_image tm = Some cm /\
        grad !! i = Some ((cp - cm) / (2 * h)).
Proof.
  intros Hlen Hshape. split; [reflexivity|].
  destruct (compute_gradient_total fixed_image moving_image params h Hlen Hshape)
    as [grad Hgrad].
  exists grad. split; [exact Hgrad|].
  split; [eapply compute_gradient_length; eauto|].
  intros i x Hx.
  destruct (perturb_plus_lookup params i h x Hx) as (Hp1 & Hp2 & _).
  destruct (perturb_minus_lookup params i h x Hx) as (Hm1 & Hm2 & _).
  split; [split; [exact Hp1|split; [exact Hm1|intros j Hj; split; auto]]|].
  destruct (gradient_entry_total fixed_image moving_image params h i Hlen Hshape)
    as (tp & tm & cp & cm & Htp & Hcp & Htm & Hcm & He).
  exists tp, tm, cp, cm. repeat split; auto.
  apply gradient_loop_spec in Hgrad as (_ & Hin & _); [|apply NoDup_seq].
  apply lookup_lt_Some in Hx.
  destruct (Hin i) as (g & Hg & Hgi).
  - apply elem_of_seq. lia.
  - unfold zeros_like. rewrite length_replicate. exact Hx.
  - rewrite Hgi. congruence.
Qed.

(** ** The identity transform *)

(** *** Reading the pixels of a resampled image *)

Lemma lookup_rows {A} (f : nat -> nat -> A) (nc : nat) (nr : nat) :
  forall (start r c : nat), (r < nr)%nat -> (c < nc)%nat ->
  (r' ← seq start nr; (fun c' => f r' c') <$> seq 0 nc) !! (r * nc + c)%nat
  = Some (f (start + r)%nat c).
Proof.
  induction nr as [|nr IH]; intros start r c Hr Hc; [lia|].
  cbn [seq]. rewrite bind_cons.
  destruct r as [|r].
  - rewrite lookup_app_l by (rewrite length_fmap, length_seq; lia).
    rewrite list_lookup_fmap, lookup_seq_lt by lia. simpl.
    now rewrite Nat.add_0_r.
  - rewrite lookup_app_r by (rewrite length_fmap, length_seq; simpl; lia).
    rewrite length_fmap, length_seq.
    replace (S r * nc + c - nc)%nat with (r * nc + c)%nat by (simpl; lia).
    rewrite IH by lia. f_equal. f_equal. lia.
Qed.

Lemma pixel_affine_transform im matrix offset (r c : nat) :
  (r < nrows im)%nat -> (c < ncols im)%nat ->
  pixel (affine_transform im matrix offset) r c
  = Some (bilinear im (v0 (source_coord matrix offset r c))
                      (v1 (source_coord matrix offset r c))).
Proof.
  intros Hr Hc. unfold pixel, affine_transform.
  cbn [nrows ncols pixels]. rewrite decide_True by auto.
  now rewrite (lookup_rows
    (fun r c => bilinear im (v0 (source_coord matrix offset r c))
                            (v1 (source_coord matrix offset r c)))).
Qed.

Lemma pixel_inside im (r c : nat) v :
  pixel im r c = Some v -> (r < nrows im)%nat /\ (c < ncols im)%nat.
Proof. unfold pixel. destruct (decide _); [auto|discriminate]. Qed.

Lemma pixel_or_fill_inside im (r c : nat) v :
  pixel im r c = Some v -> pixel_or_fill im (Z.of_nat r) (Z.of_nat c) = v.
Proof.
  intros H. unfold pixel_or_fill. rewrite decide_True by lia.
  now rewrite !Nat2Z.id, H.
Qed.

Lemma pixel_finite im (r c : nat) v :
  finite_image im -> pixel im r c = Some v -> is_finite v = true.
Proof.
  unfold finite_image, pixel. intros Hf H.
  destruct (decide _); [|discriminate].
  eapply Forall_lookup_1 in Hf; eauto.
Qed.

Lemma pixel_or_fill_finite im (r c : Z) :
  finite_image im -> is_finite (pixel_or_fill im r c) = true.
Proof.
  intros Hf. unfold pixel_or_fill. destruct (decide _); [|reflexivity].
  destruct (pixel im (Z.to_nat r) (Z.to_nat c)) as [v|] eqn:E; [|reflexivity].
  simpl. eapply pixel_finite; eauto.
Qed.

(** Interpolation at a grid point: the sample there, plus three zeros. *)
Lemma bilinear_grid im (r c : nat) v :
  finite_image im ->
  (Z.of_nat r < 2 ^ 53)%Z -> (Z.of_nat c < 2 ^ 53)%Z ->
  pixel im r c = Some v ->
  (bilinear im (Z2F (Z.of_nat r)) (Z2F (Z.of_nat c)) =? v) = true /\
  (Prim2SF v <> S754_zero true ->
   bilinear im (Z2F (Z.of_nat r)) (Z2F (Z.of_nat c)) = v).
Proof.
  intros Hf Hr Hc Hv.
  destruct (Z2F_nat_spec r Hr) as [Hpr Hfr].
  destruct (Z2F_nat_spec c Hc) as [Hpc Hfc].
  unfold bilinear. rewrite Hfr, Hfc.
  rewrite !fsub_diag by now apply fplain_finite.
  change ((1 - 0) * (1 - 0)) with 1.
  change ((1 - 0) * 0) with 0.
  change (0 * (1 - 0)) with 0.
  change (0 * 0) with 0.
  rewrite fmul_1_l, (pixel_or_fill_inside im r c v Hv).
  pose proof (pixel_finite im r c v Hf Hv) as Hvf.
  pose proof (fmul_0_finite _ (pixel_or_fill_finite im (Z.of_nat r) (Z.of_nat c + 1) Hf))
    as Hz1.
  pose proof (fmul_0_finite _ (pixel_or_fill_finite im (Z.of_nat r + 1) (Z.of_nat c) Hf))
    as Hz2.
  pose proof (fmul_0_finite _
      (pixel_or_fill_finite im (Z.of_nat r + 1) (Z.of_nat c + 1) Hf)) as Hz3.
  set (z1 := 0 * pixel_or_fill im (Z.of_nat r) (Z.of_nat c + 1)) in *.
  set (z2 := 0 * pixel_or_fill im (Z.of_nat r + 1) (Z.of_nat c)) in *.
  set (z3 := 0 * pixel_or_fill im (Z.of_nat r + 1) (Z.of_nat c + 1)) in *.
  assert (Hexact : Prim2SF v <> S754_zero true -> v + z1 + z2 + z3 = v).
  { intros Hn.
    rewrite (fadd_zero_r v z1), (fadd_zero_r v z2) by assumption.
    now apply fadd_zero_r. }
  split; [|exact Hexact].
  destruct (Prim2SF v) as [[]| | |] eqn:Ev;
    try (rewrite Hexact by congruence; now apply feqb_refl).
  apply fzero_eqb; [|unfold fzero; now rewrite Ev].
  repeat apply fadd_zero_zero; auto. unfold fzero. now rewrite Ev.
Qed.

(** *** The transform at the identity parameters *)

Section IdentityTransform.

(** What the library functions return at zero. *)
Hypothesis deg2rad_0 : deg2rad 0 = 0.
Hypothesis cos_0 : cos (- 0) = 1.
Hypothesis sin_0 : sin (- 0) = - 0.


Lemma identity_matrix : inverse_matrix 1 0 = Mat2 1 0 (- 0) 1.
Proof.
  unfold inverse_matrix, inverse_rotation.
  rewrite deg2rad_0, cos_0, sin_0. reflexivity.
Qed.

Lemma identity_offset im :
  (0 < Z.of_nat (nrows im) < 2 ^ 53)%Z -> (0 < Z.of_nat (ncols im) < 2 ^ 53)%Z ->
  transform_offset im (Mat2 1 0 (- 0) 1) 0 0 = Vec2 0 0.
Proof.
  intros Hr Hc. unfold transform_offset, vec_sub, mat_vec.
  cbn [m00 m01 m10 m11 v0 v1].
  pose proof (center_plain _ Hr) as Hpr. pose proof (center_plain _ Hc) as Hpc.
  set (c0 := Z2F (Z.of_nat (nrows im)) / 2.0) in *.
  set (c1 := Z2F (Z.of_nat (ncols im)) / 2.0) in *.
  rewrite !fmul_1_l, (fmul_0_plain c1), (fmul_n0_plain c0) by assumption.
  rewrite (fadd_0_r_plain c0), (fadd_n0_l_plain c1) by assumption.
  rewrite !fsub_diag by now apply fplain_finite.
  reflexivity.
Qed.

Lemma identity_source_coord (r c : nat) :
  (Z.of_nat r < 2 ^ 53)%Z -> (Z.of_nat c < 2 ^ 53)%Z ->
  source_coord (Mat2 1 0 (- 0) 1) (Vec2 0 0) r c
  = Vec2 (Z2F (Z.of_nat r)) (Z2F (Z.of_nat c)).
Proof.
  intros Hr Hc. unfold source_coord, mat_vec. cbn [m00 m01 m10 m11 v0 v1].
  destruct (Z2F_nat_spec r Hr) as [Hpr _]. destruct (Z2F_nat_spec c Hc) as [Hpc _].
  rewrite !fmul_1_l, (fmul_0_plain _ Hpc), (fmul_n0_plain _ Hpr).
  rewrite (fadd_n0_l_plain _ Hpc), !(fadd_0_r_plain _ Hpr), (fadd_0_r_plain _ Hpc).
  reflexivity.
Qed.

(** C4: with the identity parameters [(1, 0, 0, 0)] the inverse linear map
    is the identity matrix, the offset is the zero vector, and the resampled
    image holds at every pixel position the sample of the input there
    (images hold numbers, and their dimensions are below [2^53]). *)
Theorem similarity_transform_identity im (r c : nat) (v : float) :
  finite_image im ->
  (Z.of_nat (nrows im) < 2 ^ 53)%Z -> (Z.of_nat (ncols im) < 2 ^ 53)%Z ->
  pixel im r c = Some v ->
  inverse_matrix 1 0 = Mat2 1 0 (- 0) 1 /\
  transform_offset im (inverse_matrix 1 0) 0 0 = Vec2 0 0 /\
  exists out v',
    similarity_transform im [1; 0; 0; 0] = Some out /\
    shape out = shape im /\
    pixel out r c = Some v' /\
    (v' =? v) = true /\
    (Prim2SF v <> S754_zero true -> v' = v).
Proof.
  intros Hf Hnr Hnc Hv.
  destruct (pixel_inside im r c v Hv) as [Hr Hc].
  assert (Hoff : transform_offset im (Mat2 1 0 (- 0) 1) 0 0 = Vec2 0 0)
    by (apply identity_offset; lia).
  split; [apply identity_matrix|]. rewrite identity_matrix.
  split; [exact Hoff|].
  exists (affine_transform im (Mat2 1 0 (- 0) 1) (Vec2 0 0)),
         (bilinear im (Z2F (Z.of_nat r)) (Z2F (Z.of_nat c))).
  split.
  { unfold similarity_transform. now rewrite identity_matrix, Hoff. }
  split; [reflexivity|].
  split.
  { rewrite pixel_affine_transform by assumption.
    now rewrite identity_source_coord by lia. }
  apply bilinear_grid; auto; lia.
Qed.

End IdentityTransform.

(** ** The Adam solver *)

(** *** Boolean-mask updates *)

Lemma put_mask_length mask : forall a vals, length (put_mask mask a vals) = length a.
Proof.
  induction mask as [|b mask IH]; intros [|x a] vals; simpl; auto.
  destruct b; [destruct vals|]; simpl; now rewrite IH.
Qed.

Lemma put_mask_false mask : forall a vals i,
  mask !! i = Some false -> put_mask mask a vals !! i = a !! i.
Proof.
  induction mask as [|b mask IH]; intros [|x a] vals [|i] H; simpl in *;
    try discriminate; auto.
  - injection H as ->. reflexivity.
  - destruct b; [destruct vals|]; simpl; now apply IH.
Qed.

Lemma put_mask_sub mask : forall (a u : list float) (i : nat) (b : bool) (x y : float),
  mask !! i = Some b -> a !! i = Some x -> u !! i = Some y ->
  put_mask mask a (zip_with sub (take_mask mask a) (take_mask mask u)) !! i
  = Some (if b then x - y else x).
Proof.
  induction mask as [|b' mask IH]; intros [|x' a] [|y' u] i b x y Hm Ha Hu;
    destruct i as [|i]; simpl in *; try discriminate.
  - injection Hm as ->. injection Ha as ->. injection Hu as ->.
    destruct b; reflexivity.
  - destruct b'; simpl; now apply IH.
Qed.

Lemma masked_sub_Some a u mask a' :
  masked_sub a u mask = Some a' ->
  length mask = length a /\ length mask = length u /\ length a' = length a /\
  (forall i, mask !! i = Some false -> a' !! i = a !! i) /\
  (forall (i : nat) (b : bool) (x y : float),
     mask !! i = Some b -> a !! i = Some x -> u !! i = Some y ->
     a' !! i = Some (if b then x - y else x)).
Proof.
  unfold masked_sub. intros H.
  destruct (decide (length mask = length a)) as [Ha|]; [|discriminate].
  destruct (decide (length mask = length u)) as [Hu|]; [|discriminate].
  injection H as <-. repeat split; auto.
  - apply put_mask_length.
  - intros i Hi. now apply put_mask_false.
  - intros i b x y. apply put_mask_sub.
Qed.

Lemma masked_sub_total a u mask :
  length mask = length a -> length mask = length u -> is_Some (masked_sub a u mask).
Proof.
  intros Ha Hu. unfold masked_sub. rewrite !decide_True by assumption. eauto.
Qed.

(** *** One iteration *)

Lemma adam_step_Some fixed_image moving_image learning_rate trainable_params
    beta1 beta2 epsilon t st st' :
  adam_step fixed_image moving_image learning_rate trainable_params
    beta1 beta2 epsilon t st = Some st' ->
  exists transformed cost grad,
    similarity_transform moving_image (st_params st) = Some transformed /\
    ssd fixed_image transformed = Some cost /\
    compute_gradient fixed_image moving_image (st_params st) default_h = Some grad /\
    st_m st' = moment1 beta1 (st_m st) grad /\
    st_v st' = moment2 beta2 (st_v st) grad /\
    masked_sub (st_params st)
      (adam_update learning_rate epsilon
         (bias_correct beta1 t (st_m st')) (bias_correct beta2 t (st_v st')))
      trainable_params = Some (st_params st') /\
    st_cost_history st' = st_cost_history st ++ [cost].
Proof.
  unfold adam_step. intros H.
  destruct (similarity_transform moving_image (st_params st)) as [tr|] eqn:E1;
    simpl in H; [|discriminate].
  destruct (ssd fixed_image tr) as [c|] eqn:E2; simpl in H; [|discriminate].
  destruct (compute_gradient fixed_image moving_image (st_params st) default_h)
    as [g|] eqn:E3; simpl in H; [|discriminate].
  destruct (masked_sub _ _ _) as [p|] eqn:E4; simpl in H; [|discriminate].
  injection H as <-. simpl. exists tr, c, g. repeat split; auto.
Qed.


Lemma adam_step_frozen fixed_image moving_image learning_rate trainable_params
    beta1 beta2 epsilon t st st' (i : nat) :
  adam_step fixed_image moving_image learning_rate trainable_params
    beta1 beta2 epsilon t st = Some st' ->
  trainable_params !! i = Some false ->
  st_params st' !! i = st_params st !! i.
Proof.
  intros H Hi. apply adam_step_Some in H as (_ & _ & _ & _ & _ & _ & _ & _ & H & _).
  apply masked_sub_Some in H as (_ & _ & _ & H & _). now apply H.
Qed.

Lemma adam_loop_frozen fixed_image moving_image learning_rate trainable_params
    beta1 beta2 epsilon (i : nat) ts : forall st st',
  adam_loop fixed_image moving_image learning_rate trainable_params
    beta1 beta2 epsilon ts st = Some st' ->
  trainable_params !! i = Some false ->
  st_params st' !! i = st_params st !! i.
Proof.
  induction ts as [|t ts IH]; intros st st' H Hi; simpl in H.
  - now injection H as <-.
  - destruct (adam_step _ _ _ _ _ _ _ t st) as [st1|] eqn:E; simpl in H; [|discriminate].
    rewrite (IH _ _ H Hi). eapply adam_step_frozen; eauto.
Qed.

Lemma adam_step_total fixed_image moving_image learning_rate trainable_params
    beta1 beta2 epsilon t st :
  adam_wf st -> length trainable_params = 4%nat ->
  shape fixed_image = shape moving_image ->
  exists st', adam_step fixed_image moving_image learning_rate trainable_params
                beta1 beta2 epsilon t st = Some st' /\ adam_wf st'.
Proof.
  intros (Hp & Hm & Hv) Hmask Hshape.
  destruct (similarity_transform_total moving_image (st_params st) Hp)
    as (tr & Htr & Hs).
  destruct (ssd_total fixed_image tr) as [c Hc]; [congruence|].
  destruct (compute_gradient_total fixed_image moving_image
              (st_params st) default_h Hp Hshape) as [g Hg].
  pose proof (compute_gradient_length _ _ _ _ _ Hg) as Hgl.
  assert (Hm' : length (moment1 beta1 (st_m st) g) = 4%nat).
  { unfold moment1, vadd, smul. rewrite length_zip_with, !length_fmap. lia. }
  assert (Hv' : length (moment2 beta2 (st_v st) g) = 4%nat).
  { unfold moment2, vadd, smul, vsquare. rewrite length_zip_with, !length_fmap. lia. }
  destruct (masked_sub_total (st_params st)
      (adam_update learning_rate epsilon
         (bias_correct beta1 t (moment1 beta1 (st_m st) g))
         (bias_correct beta2 t (moment2 beta2 (st_v st) g))) trainable_params)
    as [p Hpm]; [congruence| |].
  { unfold adam_update, bias_correct, vdiv, smul, vadds, vsqrt, vdivs.
    rewrite length_zip_with, !length_fmap. lia. }
  eexists. unfold adam_step. rewrite Htr. simpl. rewrite Hc. simpl.
  rewrite Hg. simpl. rewrite Hpm. simpl. split; [reflexivity|].
  apply masked_sub_Some in Hpm as (_ & _ & Hl & _).
  repeat split; simpl; congruence.
Qed.

Lemma adam_loop_total fixed_image moving_image learning_rate trainable_params
    beta1 beta2 epsilon ts : forall st,
  adam_wf st -> length trainable_params = 4%nat ->
  shape fixed_image = shape moving_image ->
  exists st', adam_loop fixed_image moving_image learning_rate trainable_params
                beta1 beta2 epsilon ts st = Some st' /\ adam_wf st'.
Proof.
  induction ts as [|t ts IH]; intros st Hwf Hmask Hshape; simpl.
  - eauto.
  - destruct (adam_step_total fixed_image moving_image learning_rate trainable_params
                beta1 beta2 epsilon t st Hwf Hmask Hshape) as (st1 & -> & Hwf1).
    simpl. now apply IH.
Qed.

Lemma adam_init_wf initial_params :
  length initial_params = 4%nat -> adam_wf (adam_init initial_params).
Proof.
  intros H. unfold adam_wf, adam_init, zeros_like. simpl.
  rewrite !length_replicate. auto.
Qed.

Lemma adam_optimizer_total fixed_image moving_image initial_params learning_rate
    num_iterations trainable_params beta1 beta2 epsilon :
  length initial_params = 4%nat -> length trainable_params = 4%nat ->
  shape fixed_image = shape moving_image ->
  exists params cost_history,
    adam_optimizer fixed_image moving_image initial_params learning_rate
      num_iterations trainable_params beta1 beta2 epsilon = Some (params, cost_history) /\
    length params = 4%nat.
Proof.
  intros Hp Hmask Hshape. unfold adam_optimizer.
  destruct (adam_loop_total fixed_image moving_image learning_rate trainable_params
              beta1 beta2 epsilon (seq 1 (Z.to_nat num_iterations))
              (adam_init initial_params) (adam_init_wf _ Hp) Hmask Hshape)
    as (st & -> & Hwf & _).
  simpl. eauto.
Qed.

(** C5: a parameter whose mask entry is false leaves a call of the solver
    with the value it entered with, whatever the iteration count, the
    learning rate and the images; and a call on four parameters, a mask of
    four flags and two images of one shape returns. *)
Theorem adam_optimizer_frozen fixed_image moving_image initial_params learning_rate
    num_iterations trainable_params beta1 beta2 epsilon :
  (forall params cost_history,
     adam_optimizer fixed_image moving_image initial_params learning_rate
       num_iterations trainable_params beta1 beta2 epsilon = Some (params, cost_history) ->
     forall i : nat, trainable_params !! i = Some false ->
       params !! i = initial_params !! i)
  /\ (length initial_params = 4%nat -> length trainable_params = 4%nat ->
      shape fixed_image = shape moving_image ->
      is_Some (adam_optimizer fixed_image moving_image initial_params learning_rate
                 num_iterations trainable_params beta1 beta2 epsilon)).
Proof.
  split.
  - intros params hist H i Hi. unfold adam_optimizer in H.
    destruct (adam_loop _ _ _ _ _ _ _ _ _) as [st|] eqn:E; simpl in H; [|discriminate].
    injection H as <- _.
    apply (adam_loop_frozen _ _ _ _ _ _ _ i) in E; [|exact Hi]. exact E.
  - intros Hp Hmask Hshape.
    destruct (adam_optimizer_total fixed_image moving_image initial_params learning_rate
                num_iterations trainable_params beta1 beta2 epsilon Hp Hmask Hshape)
      as (p & h & -> & _). eauto.
Qed.

(** *** The iterations of a call *)

Lemma adam_loop_app fixed_image moving_image learning_rate trainable_params
    beta1 beta2 epsilon ts1 ts2 : forall st,
  adam_loop fixed_image moving_image learning_rate trainable_params
    beta1 beta2 epsilon (ts1 ++ ts2) st
  = st' ← adam_loop fixed_image moving_image learning_rate trainable_params
             beta1 beta2 epsilon ts1 st;
    adam_loop fixed_image moving_image learning_rate trainable_params
      beta1 beta2 epsilon ts2 st'.
Proof.
  induction ts1 as [|t ts1 IH]; intros st; simpl; [reflexivity|].
  destruct (adam_step _ _ _ _ _ _ _ t st) as [st1|]; simpl; [apply IH|reflexivity].
Qed.

Lemma adam_state_at_succ fixed_image moving_image initial_params learning_rate
    trainable_params beta1 beta2 epsilon k :
  adam_state_at fixed_image moving_image initial_params learning_rate
    trainable_params beta1 beta2 epsilon (S k)
  = st ← adam_state_at fixed_image moving_image initial_params learning_rate
           trainable_params beta1 beta2 epsilon k;
    adam_step fixed_image moving_image learning_rate trainable_params
      beta1 beta2 epsilon (S k) st.
Proof.
  unfold adam_state_at. rewrite seq_S, adam_loop_app. simpl.
  destruct (adam_loop _ _ _ _ _ _ _ _ _) as [st|]; simpl; [|reflexivity].
  destruct (adam_step _ _ _ _ _ _ _ _ st); reflexivity.
Qed.




(** ** The registration driver *)

Lemma adam_loop_length fixed_image moving_image learning_rate trainable_params
    beta1 beta2 epsilon ts : forall st st',
  adam_loop fixed_image moving_image learning_rate trainable_params
    beta1 beta2 epsilon ts st = Some st' ->
  length (st_params st') = length (st_params st).
Proof.
  induction ts as [|t ts IH]; intros st st' H; simpl in H.
  - now injection H as <-.
  - destruct (adam_step _ _ _ _ _ _ _ t st) as [st1|] eqn:E; simpl in H; [|discriminate].
    rewrite (IH _ _ H).
    apply adam_step_Some in E as (_ & _ & _ & _ & _ & _ & _ & _ & E & _).
    now apply masked_sub_Some in E as (_ & _ & E & _).
Qed.

Lemma adam_optimizer_length fixed_image moving_image initial_params learning_rate
    num_iterations trainable_params beta1 beta2 epsilon params cost_history :
  adam_optimizer fixed_image moving_image initial_params learning_rate
    num_iterations trainable_params beta1 beta2 epsilon = Some (params, cost_history) ->
  length params = length initial_params.
Proof.
  unfold adam_optimizer. intros H.
  destruct (adam_loop _ _ _ _ _ _ _ _ _) as [st|] eqn:E; simpl in H; [|discriminate].
  injection H as <- _. now apply adam_loop_length in E.
Qed.


Lemma mul_from_translation s theta tx ty d :
  mul_from 2 [s; theta; tx; ty] d = [s; theta; tx * d; ty * d].
Proof. reflexivity. Qed.


(** ** Arrays of the caller *)

(** *** Steps of the store monad *)

Lemma bind_Some {A B} (c : M A) (k : A -> M B) (h h' : heap) (a : A) :
  c h = Some (a, h') -> (c ≫= k) h = k a h'.
Proof. intros H. unfold mbind, M_bind. now rewrite H. Qed.

Lemma bind_None {A B} (c : M A) (k : A -> M B) (h : heap) :
  c h = None -> (c ≫= k) h = None.
Proof. intros H. unfold mbind, M_bind. now rewrite H. Qed.

Lemma bind_lift {A B} (o : option A) (k : A -> M B) (h : heap) :
  (lift o ≫= k) h = match o with Some a => k a h | None => None end.
Proof. destruct o; reflexivity. Qed.

Lemma read_Some (l : loc) (h : heap) (a : list float) :
  h !! l = Some a -> read l h = Some (a, h).
Proof. intros H. unfold read. now rewrite H. Qed.

Lemma read_None (l : loc) (h : heap) : h !! l = None -> read l h = None.
Proof. intros H. unfold read. now rewrite H. Qed.

Lemma np_copy_Some (l : loc) (h : heap) (a : list float) :
  h !! l = Some a -> np_copy l h = Some (length h, h ++ [a]).
Proof. intros H. unfold np_copy. now rewrite (bind_Some _ _ _ _ _ (read_Some _ _ _ H)). Qed.

Lemma np_copy_None (l : loc) (h : heap) : h !! l = None -> np_copy l h = None.
Proof. intros H. unfold np_copy. now rewrite (bind_None _ _ _ (read_None _ _ H)). Qed.

Lemma np_zeros_like_Some (l : loc) (h : heap) (a : list float) :
  h !! l = Some a -> np_zeros_like l h = Some (length h, h ++ [zeros_like a]).
Proof.
  intros H. unfold np_zeros_like. now rewrite (bind_Some _ _ _ _ _ (read_Some _ _ _ H)).
Qed.

Lemma np_zeros_like_None (l : loc) (h : heap) : h !! l = None -> np_zeros_like l h = None.
Proof. intros H. unfold np_zeros_like. now rewrite (bind_None _ _ _ (read_None _ _ H)). Qed.

Lemma store_at_Some (l : loc) (i : nat) (x : float) (h : heap) (a : list float) :
  h !! l = Some a -> (i < length a)%nat ->
  store_at l i x h = Some (tt, <[l := <[i := x]> a]> h).
Proof. intros H Hi. unfold store_at. rewrite H. now rewrite decide_True. Qed.

Lemma iadd_at_Some (l : loc) (i : nat) (x y : float) (h : heap) (a : list float) :
  h !! l = Some a -> a !! i = Some y ->
  iadd_at l i x h = Some (tt, <[l := <[i := y + x]> a]> h).
Proof.
  intros H Hi. unfold iadd_at.
  rewrite (bind_Some _ _ _ _ _ (read_Some _ _ _ H)), bind_lift, Hi.
  apply store_at_Some; [exact H|]. eapply lookup_lt_Some; eauto.
Qed.

Lemma isub_at_Some (l : loc) (i : nat) (x y : float) (h : heap) (a : list float) :
  h !! l = Some a -> a !! i = Some y ->
  isub_at l i x h = Some (tt, <[l := <[i := y - x]> a]> h).
Proof.
  intros H Hi. unfold isub_at.
  rewrite (bind_Some _ _ _ _ _ (read_Some _ _ _ H)), bind_lift, Hi.
  apply store_at_Some; [exact H|]. eapply lookup_lt_Some; eauto.
Qed.

(** Lookups and writes in a store [h ++ a :: ext]. *)
Lemma lookup_mid (h ext : heap) (a : list float) : (h ++ a :: ext) !! length h = Some a.
Proof. now rewrite lookup_app_r, Nat.sub_diag by lia. Qed.

Lemma insert_mid (h ext : heap) (a b : list float) :
  <[length h := b]> (h ++ a :: ext) = h ++ b :: ext.
Proof. now rewrite insert_app_r_alt, Nat.sub_diag by lia. Qed.

Lemma lookup_last (h : heap) (a : list float) : (h ++ [a]) !! length h = Some a.
Proof. apply lookup_mid. Qed.

Lemma insert_last (h : heap) (a b : list float) : <[length h := b]> (h ++ [a]) = h ++ [b].
Proof. apply insert_mid. Qed.

(** *** The gradient estimator over the store *)

Lemma gradient_body_st_spec fixed_image moving_image (p : loc) (h : float) (i : nat)
    (H ext : heap) (params gv : list float) :
  H !! p = Some params -> (i < length params)%nat -> (i < length gv)%nat ->
  gradient_body_st fixed_image moving_image p (length H) h i (H ++ gv :: ext)
  = match gradient_entry fixed_image moving_image params h i with
    | Some g =>
        Some (tt, H ++ <[i := g]> gv
                    :: ext ++ [perturb_plus params i h; perturb_minus params i h])
    | None => None
    end.
Proof.
  intros Hp Hi Hg.
  destruct (lookup_lt_is_Some_2 params i Hi) as [x Hx].
  set (h0 := H ++ gv :: ext).
  assert (Hp0 : h0 !! p = Some params).
  { unfold h0. apply lookup_app_l_Some, Hp. }
  unfold gradient_body_st, gradient_entry.
  rewrite (bind_Some _ _ _ _ _ (np_copy_Some _ _ _ Hp0)).
  rewrite (bind_Some _ _ _ _ _ (iadd_at_Some _ i h x _ _ (lookup_last _ _) Hx)).
  rewrite insert_last.
  replace (<[i := x + h]> params) with (perturb_plus params i h)
    by (unfold perturb_plus; now rewrite Hx).
  set (h1 := h0 ++ [perturb_plus params i h]).
  assert (Hp1 : h1 !! p = Some params) by (apply lookup_app_l_Some, Hp0).
  rewrite (bind_Some _ _ _ _ _ (np_copy_Some _ _ _ Hp1)).
  rewrite (bind_Some _ _ _ _ _ (isub_at_Some _ i h x _ _ (lookup_last _ _) Hx)).
  rewrite insert_last.
  replace (<[i := x - h]> params) with (perturb_minus params i h)
    by (unfold perturb_minus; now rewrite Hx).
  set (h2 := h1 ++ [perturb_minus params i h]).
  assert (Hpp : h2 !! length h0 = Some (perturb_plus params i h)).
  { unfold h2. apply lookup_app_l_Some. unfold h1. apply lookup_last. }
  rewrite (bind_Some _ _ _ _ _ (read_Some _ _ _ Hpp)), bind_lift.
  destruct (similarity_transform moving_image (perturb_plus params i h)) as [tp|];
    [|reflexivity].
  rewrite bind_lift. simpl.
  destruct (ssd fixed_image tp) as [cp|]; [|reflexivity].
  assert (Hpm : h2 !! length h1 = Some (perturb_minus params i h)).
  { unfold h2. apply lookup_last. }
  rewrite (bind_Some _ _ _ _ _ (read_Some _ _ _ Hpm)), bind_lift. simpl.
  destruct (similarity_transform moving_image (perturb_minus params i h)) as [tm|];
    [|reflexivity].
  rewrite bind_lift. simpl.
  destruct (ssd fixed_image tm) as [cm|]; [|reflexivity].
  simpl.
  assert (Hgv : h2 !! length H = Some gv).
  { unfold h2, h1, h0. rewrite <- !app_assoc. apply lookup_mid. }
  rewrite (store_at_Some _ _ _ _ _ Hgv Hg). do 2 f_equal.
  unfold h2, h1, h0. rewrite <- !app_assoc. simpl. rewrite insert_mid.
  reflexivity.
Qed.

Lemma gradient_loop_st_spec fixed_image moving_image (p : loc) (h : float)
    (H : heap) (params : list float) indices : forall (gv : list float) (ext : heap),
  H !! p = Some params -> length gv = length params ->
  Forall (fun i => (i < length params)%nat) indices ->
  match gradient_loop fixed_image moving_image params h indices gv with
  | Some g =>
      exists ext', gradient_loop_st fixed_image moving_image p (length H) h indices
                     (H ++ gv :: ext) = Some (tt, H ++ g :: ext')
  | None =>
      gradient_loop_st fixed_image moving_image p (length H) h indices
        (H ++ gv :: ext) = None
  end.
Proof.
  induction indices as [|i rest IH]; intros gv ext Hp Hlen Hall; simpl.
  - eauto.
  - apply Forall_cons in Hall as [Hi Hall].
    pose proof (gradient_body_st_spec fixed_image moving_image p h i H ext params gv
                  Hp Hi ltac:(lia)) as Hb.
    destruct (gradient_entry fixed_image moving_image params h i) as [g|]; simpl.
    + rewrite (bind_Some _ _ _ _ _ Hb).
      apply IH; auto. now rewrite length_insert.
    + now rewrite (bind_None _ _ _ Hb).
Qed.

Lemma compute_gradient_st_spec fixed_image moving_image (p : loc) (h : float)
    (H : heap) (params : list float) :
  H !! p = Some params ->
  match compute_gradient fixed_image moving_image params h with
  | Some g =>
      exists ext, compute_gradient_st fixed_image moving_image p h H
                  = Some (length H, H ++ g :: ext)
  | None => compute_gradient_st fixed_image moving_image p h H = None
  end.
Proof.
  intros Hp. unfold compute_gradient_st, compute_gradient.
  rewrite (bind_Some _ _ _ _ _ (np_zeros_like_Some _ _ _ Hp)).
  assert (Hp1 : (H ++ [zeros_like params]) !! p = Some params)
    by (apply lookup_app_l_Some, Hp).
  rewrite (bind_Some _ _ _ _ _ (read_Some _ _ _ Hp1)).
  pose proof (gradient_loop_st_spec fixed_image moving_image p h H params
                (seq 0 (length params)) (zeros_like params) [] Hp) as Hl.
  destruct (gradient_loop fixed_image moving_image params h (seq 0 (length params))
              (zeros_like params)) as [g|].
  - destruct Hl as [ext Hl].
    + unfold zeros_like. apply length_replicate.
    + apply Forall_forall. intros i Hi. apply elem_of_seq in Hi. lia.
    + exists ext. now rewrite (bind_Some _ _ _ _ _ Hl).
  - rewrite (bind_None _ _ _ (Hl ltac:(unfold zeros_like; apply length_replicate)
        ltac:(apply Forall_forall; intros i Hi; apply elem_of_seq in Hi; lia))).
    reflexivity.
Qed.


(** *** The Adam solver over the store *)

Lemma bind_alloc {B} (a : list float) (k : loc -> M B) (h : heap) :
  (alloc a ≫= k) h = k (length h) (h ++ [a]).
Proof. reflexivity. Qed.

Lemma isub_mask_spec (l u : loc) (mask : list bool) (h : heap) (a b : list float) :
  h !! l = Some a -> h !! u = Some b ->
  isub_mask l u mask h
  = match masked_sub a b mask with
    | Some a' => Some (tt, <[l := a']> h)
    | None => None
    end.
Proof. intros Hl Hu. unfold isub_mask. now rewrite Hl, Hu. Qed.

Lemma adam_body_st_spec fixed_image moving_image learning_rate trainable_params
    beta1 beta2 epsilon t (H ext : heap) (pv mv vv : list float) (m v : loc)
    (cost_history : list float) :
  (length H < m)%nat -> (length H < v)%nat ->
  (H ++ pv :: ext) !! m = Some mv -> (H ++ pv :: ext) !! v = Some vv ->
  match adam_step fixed_image moving_image learning_rate trainable_params
          beta1 beta2 epsilon t (AdamState pv mv vv cost_history) with
  | Some st' =>
      exists (ext' : heap) (m' v' : loc),
        adam_body_st fixed_image moving_image learning_rate trainable_params
          beta1 beta2 epsilon (length H) t (m, v, cost_history) (H ++ pv :: ext)
        = Some ((m', v', st_cost_history st'), H ++ st_params st' :: ext') /\
        (length H < m')%nat /\ (length H < v')%nat /\
        (H ++ st_params st' :: ext') !! m' = Some (st_m st') /\
        (H ++ st_params st' :: ext') !! v' = Some (st_v st')
  | None =>
      adam_body_st fixed_image moving_image learning_rate trainable_params
        beta1 beta2 epsilon (length H) t (m, v, cost_history) (H ++ pv :: ext) = None
  end.
Proof.
  intros Hm Hv Hmv Hvv.
  set (h0 := H ++ pv :: ext) in *.
  assert (Hp0 : h0 !! length H = Some pv) by apply lookup_mid.
  unfold adam_body_st, adam_step. cbn [st_params st_m st_v st_cost_history].
  rewrite (bind_Some _ _ _ _ _ (read_Some _ _ _ Hp0)), bind_lift.
  destruct (similarity_transform moving_image pv) as [tr|]; [|reflexivity].
  rewrite bind_lift. simpl.
  destruct (ssd fixed_image tr) as [c|]; [|reflexivity].
  simpl.
  pose proof (compute_gradient_st_spec fixed_image moving_image (length H) default_h
                h0 pv Hp0) as Hg.
  destruct (compute_gradient fixed_image moving_image pv default_h) as [g|];
    [|now rewrite (bind_None _ _ _ Hg)].
  destruct Hg as [ext1 Hg]. rewrite (bind_Some _ _ _ _ _ Hg). simpl.
  set (h1 := h0 ++ g :: ext1).
  assert (Hg1 : h1 !! length h0 = Some g) by apply lookup_mid.
  rewrite (bind_Some _ _ _ _ _ (read_Some _ _ _ Hg1)).
  assert (Hm1 : h1 !! m = Some mv) by (apply lookup_app_l_Some, Hmv).
  rewrite (bind_Some _ _ _ _ _ (read_Some _ _ _ Hm1)), bind_alloc.
  set (m1 := moment1 beta1 mv g).
  set (h2 := h1 ++ [m1]).
  assert (Hv2 : h2 !! v = Some vv) by (do 2 apply lookup_app_l_Some; exact Hvv).
  rewrite (bind_Some _ _ _ _ _ (read_Some _ _ _ Hv2)), bind_alloc.
  set (v1 := moment2 beta2 vv g).
  set (h3 := h2 ++ [v1]).
  assert (Hm3 : h3 !! length h1 = Some m1) by (apply lookup_app_l_Some, lookup_last).
  rewrite (bind_Some _ _ _ _ _ (read_Some _ _ _ Hm3)), bind_alloc.
  set (mh := bias_correct beta1 t m1).
  set (h4 := h3 ++ [mh]).
  assert (Hv4 : h4 !! length h2 = Some v1) by (apply lookup_app_l_Some, lookup_last).
  rewrite (bind_Some _ _ _ _ _ (read_Some _ _ _ Hv4)), bind_alloc.
  set (vh := bias_correct beta2 t v1).
  set (h5 := h4 ++ [vh]).
  assert (Hmh : h5 !! length h3 = Some mh) by (apply lookup_app_l_Some, lookup_last).
  rewrite (bind_Some _ _ _ _ _ (read_Some _ _ _ Hmh)).
  assert (Hvh : h5 !! length h4 = Some vh) by apply lookup_last.
  rewrite (bind_Some _ _ _ _ _ (read_Some _ _ _ Hvh)), bind_alloc.
  set (upd := adam_update learning_rate epsilon mh vh).
  set (h6 := h5 ++ [upd]).
  assert (Hp6 : h6 !! length H = Some pv).
  { unfold h6, h5, h4, h3, h2, h1. do 6 apply lookup_app_l_Some. exact Hp0. }
  assert (Hu6 : h6 !! length h5 = Some upd) by apply lookup_last.
  pose proof (isub_mask_spec (length H) (length h5) trainable_params h6 pv upd Hp6 Hu6)
    as Hs.
  destruct (masked_sub pv upd trainable_params) as [p'|];
    [|now rewrite (bind_None _ _ _ Hs)].
  rewrite (bind_Some _ _ _ _ _ Hs). simpl.
  assert (Hh6 : h6 = H ++ pv :: (ext ++ g :: ext1 ++ [m1; v1; mh; vh; upd])).
  { unfold h6, h5, h4, h3, h2, h1, h0. rewrite <- ?app_assoc. simpl.
    rewrite <- ?app_assoc. reflexivity. }
  rewrite Hh6, insert_mid.
  exists (ext ++ g :: ext1 ++ [m1; v1; mh; vh; upd]), (length h1), (length h2).
  assert (Hlen : (length H < length h0)%nat).
  { unfold h0. rewrite length_app. simpl. lia. }
  assert (Hl1 : (length h0 < length h1)%nat).
  { unfold h1. rewrite length_app. simpl. lia. }
  assert (Hl2 : (length h1 < length h2)%nat).
  { unfold h2. rewrite length_app. simpl. lia. }
  split; [reflexivity|]. split; [lia|]. split; [lia|].
  assert (Hm6 : h6 !! length h1 = Some m1).
  { unfold h6, h5, h4. do 3 apply lookup_app_l_Some. exact Hm3. }
  assert (Hv6 : h6 !! length h2 = Some v1).
  { unfold h6, h5. do 2 apply lookup_app_l_Some. exact Hv4. }
  rewrite Hh6 in Hm6, Hv6.
  split.
  - rewrite <- Hm6. rewrite !lookup_app_r by lia.
    replace (length h1 - length H)%nat with (S (length h1 - length H - 1)) by lia.
    reflexivity.
  - rewrite <- Hv6. rewrite !lookup_app_r by lia.
    replace (length h2 - length H)%nat with (S (length h2 - length H - 1)) by lia.
    reflexivity.
Qed.

Lemma adam_loop_st_spec fixed_image moving_image learning_rate trainable_params
    beta1 beta2 epsilon (H : heap) ts :
  forall (ext : heap) (pv mv vv : list float) (m v : loc) (cost_history : list float),
  (length H < m)%nat -> (length H < v)%nat ->
  (H ++ pv :: ext) !! m = Some mv -> (H ++ pv :: ext) !! v = Some vv ->
  match adam_loop fixed_image moving_image learning_rate trainable_params
          beta1 beta2 epsilon ts (AdamState pv mv vv cost_history) with
  | Some st' =>
      exists (ext' : heap) (m' v' : loc),
        adam_loop_st fixed_image moving_image learning_rate trainable_params
          beta1 beta2 epsilon (length H) ts (m, v, cost_history) (H ++ pv :: ext)
        = Some ((m', v', st_cost_history st'), H ++ st_params st' :: ext')
  | None =>
      adam_loop_st fixed_image moving_image learning_rate trainable_params
        beta1 beta2 epsilon (length H) ts (m, v, cost_history) (H ++ pv :: ext) = None
  end.
Proof.
  induction ts as [|t ts IH]; intros ext pv mv vv m v hist Hm Hv Hmv Hvv; simpl.
  - exists ext, m, v. reflexivity.
  - pose proof (adam_body_st_spec fixed_image moving_image learning_rate
                  trainable_params beta1 beta2 epsilon t H ext pv mv vv m v hist
                  Hm Hv Hmv Hvv) as Hb.
    destruct (adam_step _ _ _ _ _ _ _ t _) as [[p1 m1 v1 h1]|]; simpl.
    + destruct Hb as (ext' & m' & v' & Hb & Hm' & Hv' & Hmv' & Hvv').
      simpl in Hb, Hmv', Hvv'.
      rewrite (bind_Some _ _ _ _ _ Hb).
      apply IH; auto.
    + now rewrite (bind_None _ _ _ Hb).
Qed.

Lemma adam_optimizer_st_spec fixed_image moving_image (p : loc) learning_rate
    num_iterations trainable_params beta1 beta2 epsilon (H : heap)
    (initial_params : list float) :
  H !! p = Some initial_params ->
  match adam_optimizer fixed_image moving_image initial_params learning_rate
          num_iterations trainable_params beta1 beta2 epsilon with
  | Some (params, cost_history) =>
      exists ext : heap,
        adam_optimizer_st fixed_image moving_image p learning_rate
          num_iterations trainable_params beta1 beta2 epsilon H
        = Some ((length H, cost_history), H ++ params :: ext)
  | None =>
      adam_optimizer_st fixed_image moving_image p learning_rate
        num_iterations trainable_params beta1 beta2 epsilon H = None
  end.
Proof.
  intros Hp. unfold adam_optimizer_st, adam_optimizer.
  rewrite (bind_Some _ _ _ _ _ (np_copy_Some _ _ _ Hp)).
  rewrite (bind_Some _ _ _ _ _ (np_zeros_like_Some _ _ _ (lookup_last _ _))).
  assert (Hp2 : ((H ++ [initial_params]) ++ [zeros_like initial_params]) !! length H
                = Some initial_params) by (apply lookup_app_l_Some, lookup_last).
  rewrite (bind_Some _ _ _ _ _ (np_zeros_like_Some _ _ _ Hp2)).
  rewrite <- !app_assoc. simpl.
  rewrite !length_app. simpl.
  pose proof (adam_loop_st_spec fixed_image moving_image learning_rate trainable_params
                beta1 beta2 epsilon H (seq 1 (Z.to_nat num_iterations))
                [zeros_like initial_params; zeros_like initial_params]
                initial_params (zeros_like initial_params) (zeros_like initial_params)
                (length H + 1)%nat (length H + 2)%nat []) as Hl.
  unfold adam_init.
  destruct (adam_loop _ _ _ _ _ _ _ _ _) as [st|]; simpl.
  - destruct Hl as (ext & m' & v' & Hl); try lia.
    + rewrite lookup_app_r by lia.
      replace (length H + 1 - length H)%nat with 1%nat by lia. reflexivity.
    + rewrite lookup_app_r by lia.
      replace (length H + 2 - length H)%nat with 2%nat by lia. reflexivity.
    + exists ext. now rewrite (bind_Some _ _ _ _ _ Hl).
  - rewrite (bind_None _ _ _ (Hl ltac:(lia) ltac:(lia)
        ltac:(rewrite lookup_app_r by lia;
              replace (length H + 1 - length H)%nat with 1%nat by lia; reflexivity)
        ltac:(rewrite lookup_app_r by lia;
              replace (length H + 2 - length H)%nat with 2%nat by lia; reflexivity))).
    reflexivity.
Qed.

(** C10: a call of the solver, or of the gradient estimator, leaves every
    array of the store, the caller's parameter array among them, with the
    elements it had; what it returns is an array that did not exist before
    the call, holding the result the function computes from the caller's
    parameters. *)
Theorem callers_params_unchanged fixed_image moving_image (p : loc) (H : heap) :
  (forall learning_rate num_iterations trainable_params beta1 beta2 epsilon
          (q : loc) (cost_history : list float) (H' : heap),
     adam_optimizer_st fixed_image moving_image p learning_rate
       num_iterations trainable_params beta1 beta2 epsilon H
     = Some ((q, cost_history), H') ->
     H' !! p = H !! p /\
     (forall (l : loc) (a : list float), H !! l = Some a -> H' !! l = Some a) /\
     H !! q = None /\
     exists initial_params params,
       H !! p = Some initial_params /\ H' !! q = Some params /\
       adam_optimizer fixed_image moving_image initial_params learning_rate
         num_iterations trainable_params beta1 beta2 epsilon
       = Some (params, cost_history))
  /\
  (forall (h : float) (g : loc) (H' : heap),
     compute_gradient_st fixed_image moving_image p h H = Some (g, H') ->
     H' !! p = H !! p /\
     (forall (l : loc) (a : list float), H !! l = Some a -> H' !! l = Some a) /\
     H !! g = None /\
     exists params grad,
       H !! p = Some params /\ H' !! g = Some grad /\
       compute_gradient fixed_image moving_image params h = Some grad).
Proof.
  split.
  - intros lr n mask b1 b2 eps q hist H' Hrun.
    destruct (H !! p) as [init|] eqn:Hp.
    + pose proof (adam_optimizer_st_spec fixed_image moving_image p lr n mask
                    b1 b2 eps H init Hp) as Hs.
      destruct (adam_optimizer fixed_image moving_image init lr n mask b1 b2 eps)
        as [[params hist0]|] eqn:Ha.
      * destruct Hs as [ext Hs]. rewrite Hs in Hrun. injection Hrun as <- <- <-.
        split; [apply lookup_app_l_Some, Hp|].
        split; [intros l a Hl; apply lookup_app_l_Some, Hl|].
        split; [apply lookup_ge_None; lia|].
        exists init, params. split; [reflexivity|]. split; [apply lookup_mid|exact Ha].
      * rewrite Hs in Hrun. discriminate.
    + unfold adam_optimizer_st in Hrun.
      rewrite (bind_None _ _ _ (np_copy_None _ _ Hp)) in Hrun. discriminate.
  - intros h g H' Hrun.
    destruct (H !! p) as [params|] eqn:Hp.
    + pose proof (compute_gradient_st_spec fixed_image moving_image p h H params Hp) as Hs.
      destruct (compute_gradient fixed_image moving_image params h) as [grad|] eqn:Hg.
      * destruct Hs as [ext Hs]. rewrite Hs in Hrun. injection Hrun as <- <-.
        split; [apply lookup_app_l_Some, Hp|].
        split; [intros l a Hl; apply lookup_app_l_Some, Hl|].
        split; [apply lookup_ge_None; lia|].
        exists params, grad. split; [reflexivity|]. split; [apply lookup_mid|exact Hg].
      * rewrite Hs in Hrun. discriminate.
    + unfold compute_gradient_st in Hrun.
      rewrite (bind_None _ _ _ (np_zeros_like_None _ _ Hp)) in Hrun. discriminate.
Qed.

(** ** Further properties *)

(** *** Parameter counts *)

Lemma similarity_transform_wrong_length im params :
  length params <> 4%nat -> similarity_transform im params = None.
Proof.
  intros H. destruct params as [|s [|theta [|tx [|ty [|]]]]]; try reflexivity.
  now contradict H.
Qed.


Lemma gradient_entry_wrong_length fixed_image moving_image params h i :
  length params <> 4%nat -> gradient_entry fixed_image moving_image params h i = None.
Proof.
  intros H. unfold gradient_entry.
  rewrite (similarity_transform_wrong_length moving_image (perturb_plus params i h))
    by now rewrite perturb_plus_length.
  reflexivity.
Qed.

(** X5: [compute_gradient] of an empty parameter array returns an empty
    gradient without resampling anything; of any other count than four it
    raises. *)
Theorem compute_gradient_arity fixed_image moving_image params h :
  (length params = 0%nat ->
     compute_gradient fixed_image moving_image params h = Some [])
  /\ (length params <> 0%nat -> length params <> 4%nat ->
     compute_gradient fixed_image moving_image params h = None).
Proof.
  split.
  - intros H. destruct params; [reflexivity|discriminate H].
  - intros H0 H4. unfold compute_gradient.
    destruct params as [|x params]; [now contradict H0|].
    cbn [length seq gradient_loop].
    now rewrite gradient_entry_wrong_length.
Qed.

(** *** What a call of the solver returns *)

Lemma adam_loop_history fixed_image moving_image learning_rate trainable_params
    beta1 beta2 epsilon ts : forall st st',
  adam_loop fixed_image moving_image learning_rate trainable_params
    beta1 beta2 epsilon ts st = Some st' ->
  exists tail,
    st_cost_history st' = st_cost_history st ++ tail /\ length tail = length ts.
Proof.
  induction ts as [|t ts IH]; intros st st' H; simpl in H.
  - injection H as <-. exists []. now rewrite app_nil_r.
  - destruct (adam_step _ _ _ _ _ _ _ t st) as [st1|] eqn:E; simpl in H; [|discriminate].
    destruct (IH _ _ H) as (tail & Ht & Hl).
    apply adam_step_Some in E as (_ & c & _ & _ & _ & _ & _ & _ & _ & Hc).
    exists (c :: tail). rewrite Ht, Hc, <- app_assoc. split; [reflexivity|].
    simpl. now rewrite Hl.
Qed.

Lemma adam_optimizer_history_length fixed_image moving_image initial_params
    learning_rate num_iterations trainable_params beta1 beta2 epsilon params
    cost_history :
  adam_optimizer fixed_image moving_image initial_params learning_rate
    num_iterations trainable_params beta1 beta2 epsilon = Some (params, cost_history) ->
  length cost_history = Z.to_nat num_iterations.
Proof.
  intros H. unfold adam_optimizer in H.
  destruct (adam_loop _ _ _ _ _ _ _ _ _) as [st|] eqn:E; simpl in H; [|discriminate].
  injection H as _ <-.
  apply adam_loop_history in E as (tail & Ht & Hl). simpl in Ht.
  now rewrite Ht, Hl, length_seq.
Qed.

(** X7: a call of the solver that returns gives as many parameters as it
    was given and one cost per iteration: [max(0, num_iterations)] costs. *)
Theorem adam_optimizer_lengths fixed_image moving_image initial_params learning_rate
    num_iterations trainable_params beta1 beta2 epsilon params cost_history :
  adam_optimizer fixed_image moving_image initial_params learning_rate
    num_iterations trainable_params beta1 beta2 epsilon = Some (params, cost_history) ->
  length params = length initial_params /\
  Z.of_nat (length cost_history) = Z.max 0 num_iterations.
Proof.
  intros H. split; [eapply adam_optimizer_length; eauto|].
  apply adam_optimizer_history_length in H. lia.
Qed.

Lemma adam_state_at_history fixed_image moving_image initial_params learning_rate
    trainable_params beta1 beta2 epsilon k st :
  adam_state_at fixed_image moving_image initial_params learning_rate
    trainable_params beta1 beta2 epsilon k = Some st ->
  length (st_cost_history st) = k.
Proof.
  unfold adam_state_at. intros H.
  apply adam_loop_history in H as (tail & Ht & Hl). simpl in Ht.
  now rewrite Ht, Hl, length_seq.
Qed.

Lemma adam_state_at_split fixed_image moving_image initial_params learning_rate
    trainable_params beta1 beta2 epsilon (k n : nat) :
  (k <= n)%nat ->
  adam_state_at fixed_image moving_image initial_params learning_rate
    trainable_params beta1 beta2 epsilon n
  = st ← adam_state_at fixed_image moving_image initial_params learning_rate
           trainable_params beta1 beta2 epsilon k;
    adam_loop fixed_image moving_image learning_rate trainable_params
      beta1 beta2 epsilon (seq (1 + k) (n - k)) st.
Proof.
  intros Hk. unfold adam_state_at.
  replace n with (k + (n - k))%nat at 1 by lia.
  now rewrite seq_app, adam_loop_app.
Qed.

(** X8: entry [k] of the cost history is the cost of the parameters that
    enter iteration [k + 1], measured before that iteration's update: the
    first entry is the cost of the initial parameters. *)
Theorem adam_cost_history_entries fixed_image moving_image initial_params learning_rate
    num_iterations trainable_params beta1 beta2 epsilon params cost_history :
  adam_optimizer fixed_image moving_image initial_params learning_rate
    num_iterations trainable_params beta1 beta2 epsilon = Some (params, cost_history) ->
  forall k : nat, (Z.of_nat k < num_iterations)%Z ->
    exists st transformed cost,
      adam_state_at fixed_image moving_image initial_params learning_rate
        trainable_params beta1 beta2 epsilon k = Some st /\
      similarity_transform moving_image (st_params st) = Some transformed /\
      ssd fixed_image transformed = Some cost /\
      cost_history !! k = Some cost.
Proof.
  intros H k Hk.
  assert (Hrun : exists st_n,
            adam_state_at fixed_image moving_image initial_params learning_rate
              trainable_params beta1 beta2 epsilon (Z.to_nat num_iterations) = Some st_n /\
            st_cost_history st_n = cost_history).
  { unfold adam_optimizer in H. unfold adam_state_at.
    destruct (adam_loop _ _ _ _ _ _ _ _ _) as [st|]; simpl in H; [|discriminate].
    injection H as _ <-. eauto. }
  destruct Hrun as (st_n & Hn & <-).
  rewrite (adam_state_at_split _ _ _ _ _ _ _ _ (S k)) in Hn by lia.
  destruct (adam_state_at _ _ _ _ _ _ _ _ (S k)) as [st1|] eqn:E1;
    simpl in Hn; [|discriminate].
  pose proof (adam_state_at_history _ _ _ _ _ _ _ _ _ _ E1) as Hlen1.
  apply adam_loop_history in Hn as (tail & Ht & _).
  rewrite adam_state_at_succ in E1.
  destruct (adam_state_at _ _ _ _ _ _ _ _ k) as [st|] eqn:E0; simpl in E1; [|discriminate].
  pose proof (adam_state_at_history _ _ _ _ _ _ _ _ _ _ E0) as Hlen0.
  apply adam_step_Some in E1 as (tr & c & _ & Htr & Hc & _ & _ & _ & _ & Hh).
  exists st, tr, c. repeat split; auto.
  rewrite Ht, Hh, <- app_assoc. rewrite lookup_app_r by lia.
  now rewrite Hlen0, Nat.sub_diag.
Qed.

(** X9: with at least one iteration, a non-empty mask whose length is not
    the parameters' makes the call raise (NumPy reads an empty list as an
    empty integer index instead). *)
Theorem adam_optimizer_mask_mismatch fixed_image moving_image initial_params
    learning_rate num_iterations trainable_params beta1 beta2 epsilon :
  (1 <= num_iterations)%Z -> trainable_params <> [] ->
  length trainable_params <> length initial_params ->
  adam_optimizer fixed_image moving_image initial_params learning_rate
    num_iterations trainable_params beta1 beta2 epsilon = None.
Proof.
  intros Hn _ Hlen. unfold adam_optimizer.
  destruct (Z.to_nat num_iterations) as [|n] eqn:En; [lia|].
  cbn [seq adam_loop].
  destruct (adam_step _ _ _ _ _ _ _ 1%nat (adam_init initial_params)) as [st1|] eqn:E;
    [|reflexivity].
  apply adam_step_Some in E as (_ & _ & _ & _ & _ & _ & _ & _ & E & _).
  apply masked_sub_Some in E as (E & _). now contradict Hlen.
Qed.


(** *** The driver, end to end *)


Section ZoomShape.

(** The shape [zoom] returns depends on the shape it is given and on the
    factor only. *)
Hypothesis zoom_shape : forall (a b : image) (factor : float),
  shape a = shape b -> shape (zoom a factor) = shape (zoom b factor).

Lemma pyramids_same_shape fixed_image moving_image (fp mp : list image) :
  pyramid_chain fixed_image fp -> pyramid_chain moving_image mp ->
  length fp = length mp -> shape fixed_image = shape moving_image ->
  forall (i : nat) (a b : image),
    fp !! i = Some a -> mp !! i = Some b -> shape a = shape b.
Proof.
  intros [Hf0 Hfc] [Hm0 Hmc] Hlen Hshape i.
  induction i as [|i IH]; intros a b Ha Hb.
  - congruence.
  - destruct (lookup_lt_is_Some_2 fp i) as [a0 Ha0];
      [apply lookup_lt_Some in Ha; lia|].
    destruct (lookup_lt_is_Some_2 mp i) as [b0 Hb0];
      [apply lookup_lt_Some in Hb; lia|].
    rewrite (Hfc i a0 Ha0) in Ha by (apply lookup_lt_Some in Ha; lia).
    rewrite (Hmc i b0 Hb0) in Hb by (apply lookup_lt_Some in Hb; lia).
    injection Ha as <-. injection Hb as <-.
    apply zoom_shape, IH; assumption.
Qed.

Lemma div_from_length k (a : list float) d : length (div_from k a d) = length a.
Proof.
  unfold div_from, vdivs. rewrite length_app, length_fmap, length_take, length_drop. lia.
Qed.

Lemma mul_from_length k (a : list float) d : length (mul_from k a d) = length a.
Proof.
  unfold mul_from. rewrite length_app, length_fmap, length_take, length_drop. lia.
Qed.

Lemma register_level_total (fp mp : list image) (level : nat) (a b : image)
    (optimal_params cost_history : list float) :
  fp !! level = Some a -> mp !! level = Some b -> shape a = shape b ->
  length optimal_params = 4%nat ->
  exists optimal_params' history,
    register_level fp mp level (optimal_params, cost_history)
    = Some (optimal_params', cost_history ++ history) /\
    length optimal_params' = 4%nat /\ length history = 300%nat.
Proof.
  intros Ha Hb Hshape Hlen. unfold register_level. rewrite Ha, Hb. simpl.
  destruct (adam_optimizer_total a b
              (div_from 2 optimal_params (Z2F (2 ^ Z.of_nat level))) 0.1 300
              [true; true; true; true] default_beta1 default_beta2 default_epsilon)
    as (p & h & Hrun & Hp); [now rewrite div_from_length|reflexivity|exact Hshape|].
  rewrite Hrun. simpl. exists (mul_from 2 p (Z2F (2 ^ Z.of_nat level))), h.
  split; [reflexivity|]. split; [now rewrite mul_from_length|].
  apply adam_optimizer_history_length in Hrun. exact Hrun.
Qed.

Lemma register_levels_total (fp mp : list image) (levels : list nat) :
  (forall level, level ∈ levels ->
     exists a b, fp !! level = Some a /\ mp !! level = Some b /\ shape a = shape b) ->
  forall optimal_params cost_history,
    length optimal_params = 4%nat ->
    exists optimal_params' cost_history',
      register_levels fp mp levels (optimal_params, cost_history)
      = Some (optimal_params', cost_history') /\
      length optimal_params' = 4%nat /\
      length cost_history' = (length cost_history + 300 * length levels)%nat.
Proof.
  induction levels as [|level levels IH]; intros Hall optimal hist Hlen;
    cbn [register_levels].
  - exists optimal, hist. split; [reflexivity|]. split; [exact Hlen|simpl; lia].
  - destruct (Hall level) as (a & b & Ha & Hb & Hs); [left|].
    destruct (register_level_total fp mp level a b optimal hist Ha Hb Hs Hlen)
      as (p1 & h1 & -> & Hp1 & Hh1).
    cbn [mbind option_bind].
    destruct (IH (fun l Hl => Hall l (list_elem_of_further _ _ _ Hl)) p1 (hist ++ h1) Hp1)
      as (p2 & h2 & -> & Hp2 & Hh2).
    exists p2, h2. split; [reflexivity|]. split; [exact Hp2|].
    rewrite Hh2, length_app, Hh1. simpl. lia.
Qed.

(** X10: on a fixed and a moving image of one shape the whole driver
    returns (given a [zoom] that returns, with a shape that depends on the
    shape it is given and on the factor only): four parameters,
    [5 * 300 = 1500] costs, and a registered image of the moving image's
    shape. *)
Theorem register_returns fixed_image moving_image :
  shape fixed_image = shape moving_image ->
  exists optimal_params cost_history corregistred_image,
    register fixed_image moving_image
    = Some (optimal_params, cost_history, corregistred_image) /\
    length optimal_params = 4%nat /\
    length cost_history = 1500%nat /\
    shape corregistred_image = shape moving_image.
Proof.
  intros Hshape. unfold register.
  destruct (create_pyramid_chain fixed_image 5) as [Hfc Hfl].
  destruct (create_pyramid_chain moving_image 5) as [Hmc Hml].
  destruct (register_levels_total (create_pyramid fixed_image 5)
              (create_pyramid moving_image 5) (level_schedule 5)) with
    (optimal_params := [1; 0; 0; 0]) (cost_history := @nil float)
    as (p & h & Hrun & Hp & Hh); [|reflexivity|].
  { intros level Hl.
    assert (Hlt : (level < 5)%nat).
    { unfold level_schedule in Hl. apply list_elem_of_In in Hl.
      apply <- in_rev in Hl. apply in_seq in Hl. lia. }
    destruct (lookup_lt_is_Some_2 (create_pyramid fixed_image 5) level) as [a Ha];
      [rewrite Hfl; simpl; lia|].
    destruct (lookup_lt_is_Some_2 (create_pyramid moving_image 5) level) as [b Hb];
      [rewrite Hml; simpl; lia|].
    exists a, b. split; [exact Ha|]. split; [exact Hb|].
    apply (pyramids_same_shape fixed_image moving_image _ _ Hfc Hmc) with level;
      [now rewrite Hfl, Hml|exact Hshape|exact Ha|exact Hb]. }
  change (Z.of_nat 5) with 5%Z. rewrite Hrun. simpl.
  destruct (similarity_transform_total moving_image p Hp)
    as (out & -> & Hout).
  simpl. exists p, h, out. split; [reflexivity|]. split; [exact Hp|].
  split; [rewrite Hh; reflexivity|exact Hout].
Qed.

End ZoomShape.

(** *** Opposites and symmetric differences *)

Lemma binary_round_aux_opp pr em s m e l :
  binary_round_aux pr em (negb s) m e l = SFopp (binary_round_aux pr em s m e l).
Proof.
  unfold binary_round_aux.
  destruct (shr_fexp pr em m e l) as [mrs' e'].
  destruct (shr_fexp pr em _ e' loc_Exact) as [mrs'' e''].
  destruct (shr_m mrs''); try reflexivity.
  destruct (e'' <=? em - pr)%Z; reflexivity.
Qed.

Lemma binary_round_opp pr em s m e :
  binary_round pr em (negb s) m e = SFopp (binary_round pr em s m e).
Proof.
  unfold binary_round. destruct (shl_align _ _ _). apply binary_round_aux_opp.
Qed.

Lemma SFmul_opp_l pr em x y : SFmul pr em (SFopp x) y = SFopp (SFmul pr em x y).
Proof.
  destruct x as [sx|sx| |sx mx ex], y as [sy|sy| |sy my ey]; simpl;
    try reflexivity; try (now destruct sx, sy).
  rewrite <- binary_round_aux_opp. now destruct sx, sy.
Qed.

Lemma fmul_opp_l x y : (- x) * y = - (x * y).
Proof.
  apply Prim2SF_inj. rewrite opp_spec, !mul_spec, opp_spec. apply SFmul_opp_l.
Qed.

Lemma SFmul_opp_opp pr em x : SFmul pr em (SFopp x) (SFopp x) = SFmul pr em x x.
Proof. destruct x as [[]|[]| |[] m e]; reflexivity. Qed.

(** Swapping the operands of a subtraction negates the result, or leaves it
    (both differences are [+0] when the operands are equal). *)
Lemma SFsub_swap pr em x y :
  SFsub pr em y x = SFopp (SFsub pr em x y) \/ SFsub pr em y x = SFsub pr em x y.
Proof.
  destruct x as [sx|sx| |sx mx ex], y as [sy|sy| |sy my ey]; simpl;
    try (left; reflexivity); try (destruct sx, sy; auto; fail).
  rewrite (Z.min_comm ey ex).
  set (a := cond_Zopp sx (Z.pos (fst (shl_align mx ex (Z.min ex ey))))).
  set (b := cond_Zopp sy (Z.pos (fst (shl_align my ey (Z.min ex ey))))).
  replace (b - a)%Z with (- (a - b))%Z by lia.
  destruct (a - b)%Z as [|p|p]; simpl.
  - right. reflexivity.
  - left. apply (binary_round_opp pr em false).
  - left. rewrite <- (binary_round_opp pr em true). reflexivity.
Qed.

Lemma SFsquare_diff_swap pr em x y :
  SFmul pr em (SFsub pr em x y) (SFsub pr em x y)
  = SFmul pr em (SFsub pr em y x) (SFsub pr em y x).
Proof.
  destruct (SFsub_swap pr em x y) as [H|H]; rewrite H;
    [now rewrite SFmul_opp_opp|reflexivity].
Qed.

Lemma fsquare_diff_swap a b : (a - b) * (a - b) = (b - a) * (b - a).
Proof.
  apply Prim2SF_inj. rewrite !mul_spec, !sub_spec. apply SFsquare_diff_swap.
Qed.

(** *** NaN *)

Lemma SFeqb_self x : SFeqb x x = match x with S754_nan => false | _ => true end.
Proof.
  destruct x as [s|s| |s m e]; unfold SFeqb; simpl; try reflexivity.
  - now destruct s.
  - rewrite Z.compare_refl, Pos.compare_cont_refl. now destruct s.
Qed.

Lemma is_nan_spec x :
  is_nan x = match Prim2SF x with S754_nan => true | _ => false end.
Proof.
  unfold is_nan. rewrite FloatAxioms.eqb_spec, SFeqb_self.
  now destruct (Prim2SF x).
Qed.

Lemma SFdiv_core_nonneg pr em m1 e1 m2 e2 :
  (0 <= (SFdiv_core_binary pr em (Zpos m1) e1 (Zpos m2) e2).1.1)%Z.
Proof.
  unfold SFdiv_core_binary.
  match goal with |- context [Z.div_eucl ?a ?b] =>
    assert (Ha : (0 <= a)%Z);
    [|pose proof (Z.div_pos a b Ha ltac:(lia)) as Hq; unfold Z.div in Hq;
      destruct (Z.div_eucl a b) as [q r]; exact Hq]
  end.
  match goal with |- context [match ?s with _ => _ end] => destruct s end;
    try lia.
  apply Z.shiftl_nonneg. lia.
Qed.

(** A finite number divided by a number is not NaN. *)
Lemma SFdiv_finite_not_nan pr em s m e y :
  y <> S754_nan -> SFdiv pr em (S754_finite s m e) y <> S754_nan.
Proof.
  intros Hy. destruct y as [sy|sy| |sy my ey]; simpl; try discriminate; try congruence.
  pose proof (SFdiv_core_nonneg pr em m e my ey) as Hq.
  destruct (SFdiv_core_binary pr em (Z.pos m) e (Z.pos my) ey) as [[mz ez] lz].
  simpl in Hq.
  pose proof (binary_round_aux_signed pr em (xorb s sy) mz ez lz Hq) as Hs.
  intros E. rewrite E in Hs. exact Hs.
Qed.



(** *** The inverse linear map *)

(** X2: the linear part of the inverse map is a scaled rotation whatever
    the scale and the angle are: its diagonal entries are equal and its
    off-diagonal entries are opposite, bit for bit. *)
Theorem inverse_matrix_scaled_rotation s theta :
  m00 (inverse_matrix s theta) = m11 (inverse_matrix s theta) /\
  m01 (inverse_matrix s theta) = - m10 (inverse_matrix s theta).
Proof.
  unfold inverse_matrix, inverse_rotation, mat_scale. simpl.
  split; [reflexivity|apply fmul_opp_l].
Qed.

(** X3: the reciprocal of the scale that [similarity_transform] uses is NaN
    only when the scale itself is NaN: a zero scale gives 1, an infinite
    scale gives a zero, and dividing 1 by a finite scale never gives NaN. *)
Theorem inverse_scale_nan s : is_nan (inverse_scale s) = is_nan s.
Proof.
  rewrite !is_nan_spec. unfold inverse_scale, fne0.
  rewrite FloatAxioms.eqb_spec. change (Prim2SF 0) with (S754_zero false).
  destruct (Prim2SF s) as [sz|si| |ss m e] eqn:Es.
  - reflexivity.
  - replace (SFeqb (S754_infinity si) (S754_zero false)) with false by now destruct si.
    cbn [negb]. rewrite div_spec, Es. reflexivity.
  - cbn [SFeqb SFcompare negb]. rewrite div_spec, Es. reflexivity.
  - replace (SFeqb (S754_finite ss m e) (S754_zero false)) with false by now destruct ss.
    cbn [negb]. rewrite div_spec, Es.
    change (Prim2SF 1.0) with (S754_finite false 4503599627370496 (-52)).
    pose proof (SFdiv_finite_not_nan prec emax false 4503599627370496 (-52)
                  (S754_finite ss m e) ltac:(discriminate)) as Hd.
    unfold SF64div. now destruct (SFdiv _ _ _ _).
Qed.

(** *** The cost function *)

(** X4: the cost does not depend on the order of its two images, also when
    they hold NaN or infinite samples and when their shapes differ. *)
Theorem ssd_symmetric image1 image2 : ssd image1 image2 = ssd image2 image1.
Proof.
  unfold ssd.
  destruct (decide (shape image1 = shape image2)) as [H|H].
  - rewrite decide_True by congruence. do 2 f_equal. unfold vsquare.
    generalize (pixels image2).
    induction (pixels image1) as [|a l IH]; intros [|b l']; simpl; auto.
    now rewrite fsquare_diff_swap, IH.
  - rewrite decide_False by congruence. reflexivity.
Qed.

(** *** A zero step *)

Lemma fsub_0_r x : x - 0 = x.
Proof.
  apply Prim2SF_inj. rewrite sub_spec. change (Prim2SF 0) with (S754_zero false).
  now destruct (Prim2SF x) as [[]|[]| |[] m e].
Qed.

Lemma fadd_0_r x : Prim2SF x <> S754_zero true -> x + 0 = x.
Proof.
  intros H. apply Prim2SF_inj. rewrite add_spec.
  change (Prim2SF 0) with (S754_zero false).
  destruct (Prim2SF x) as [[]|[]| |[] m e]; try reflexivity. now contradict H.
Qed.

Lemma fdiff_over_zero c : (c - c) / (2 * 0) = nan.
Proof.
  apply Prim2SF_inj. change (2 * 0) with 0. rewrite div_spec, sub_spec.
  change (Prim2SF 0) with (S754_zero false). change (Prim2SF nan) with S754_nan.
  destruct (Prim2SF c) as [[]|[]| |s m e]; try reflexivity.
  unfold SF64sub. simpl. now rewrite Z.sub_diag.
Qed.

Lemma gradient_entry_zero_step fixed_image moving_image params i :
  length params = 4%nat -> shape fixed_image = shape moving_image ->
  Forall (fun x => Prim2SF x <> S754_zero true) params ->
  gradient_entry fixed_image moving_image params 0 i = Some nan.
Proof.
  intros Hlen Hshape Hnz.
  assert (Hp : perturb_plus params i 0 = params).
  { unfold perturb_plus. destruct (params !! i) as [x|] eqn:E; [|reflexivity].
    rewrite fadd_0_r by (eapply Forall_lookup_1 in Hnz; eauto).
    now apply list_insert_id. }
  assert (Hm : perturb_minus params i 0 = params).
  { unfold perturb_minus. destruct (params !! i) as [x|] eqn:E; [|reflexivity].
    rewrite fsub_0_r. now apply list_insert_id. }
  unfold gradient_entry. rewrite Hp, Hm.
  destruct (similarity_transform_total moving_image params Hlen)
    as (tr & -> & Hs).
  simpl. destruct (ssd_total fixed_image tr) as [c ->]; [congruence|].
  simpl. now rewrite fdiff_over_zero.
Qed.

(** X6: with a step [h = 0] the gradient of four parameters, none of them
    a negative zero, is NaN in every entry: both perturbed arrays are the
    parameters themselves and the difference of the two costs is divided
    by [2 * 0]. *)
Theorem compute_gradient_zero_step fixed_image moving_image params :
  length params = 4%nat -> shape fixed_image = shape moving_image ->
  Forall (fun x => Prim2SF x <> S754_zero true) params ->
  compute_gradient fixed_image moving_image params 0 = Some [nan; nan; nan; nan].
Proof.
  intros Hlen Hshape Hnz. unfold compute_gradient.
  rewrite Hlen. cbn [seq gradient_loop].
  rewrite !gradient_entry_zero_step by assumption.
  unfold zeros_like. rewrite Hlen. reflexivity.
Qed.


(** *** The cost of the starting parameters *)

Lemma np_sum_all_zero (l : list float) : Forall (fun x => x = 0) l -> np_sum l = 0.
Proof.
  unfold np_sum. induction 1 as [|x l Hx _ IH]; [reflexivity|].
  simpl. subst x. exact IH.
Qed.

(** The squared difference of two samples that compare equal. *)
Lemma fsquare_diff_eqb a a' :
  is_finite a = true -> (a' =? a) = true ->
  (Prim2SF a <> S754_zero true -> a' = a) ->
  (a - a') * (a - a') = 0.
Proof.
  intros Hf He Hs.
  destruct (Prim2SF a) as [[]| | |] eqn:Ea;
    try (rewrite Hs by discriminate; now rewrite fsub_diag).
  apply Prim2SF_inj. rewrite mul_spec, sub_spec, Ea.
  rewrite FloatAxioms.eqb_spec, Ea in He.
  now destruct (Prim2SF a') as [[]|[]| |[] m e].
Qed.

Section IdentityCost.
Hypothesis deg2rad_0 : deg2rad 0 = 0.
Hypothesis cos_0 : cos (- 0) = 1.
Hypothesis sin_0 : sin (- 0) = - 0.


(** X11: resampling a finite image with the parameters the driver starts
    from, [1; 0; 0; 0], and comparing the result with the image gives the
    cost 0 ([cos] and [sin] exact at 0). *)
Theorem identity_resample_cost_zero im :
  finite_image im -> well_shaped im ->
  (Z.of_nat (nrows im) < 2 ^ 53)%Z -> (Z.of_nat (ncols im) < 2 ^ 53)%Z ->
  exists out,
    similarity_transform im [1; 0; 0; 0] = Some out /\ ssd im out = Some 0.
Proof.
  intros Hf Hw Hnr Hnc.
  destruct (similarity_transform_total im [1; 0; 0; 0] eq_refl)
    as (out & Hout & Hshape).
  exists out. split; [exact Hout|].
  unfold ssd. rewrite decide_True by congruence. f_equal.
  apply np_sum_all_zero, Forall_lookup_2. intros k x Hk.
  unfold vsquare in Hk. rewrite list_lookup_fmap, lookup_zip_with in Hk.
  destruct (pixels im !! k) as [a|] eqn:Ea; [|discriminate].
  destruct (pixels out !! k) as [a'|] eqn:Ea'; [|discriminate].
  simpl in Hk. injection Hk as <-.
  pose proof (lookup_lt_Some _ _ _ Ea) as Hlt. rewrite Hw in Hlt.
  assert (Hc0 : (0 < ncols im)%nat) by (destruct (ncols im); lia).
  assert (Hr0 : (0 < nrows im)%nat) by (destruct (nrows im); lia).
  set (r := (k / ncols im)%nat). set (c := (k mod ncols im)%nat).
  assert (Hkrc : k = (r * ncols im + c)%nat).
  { unfold r, c. rewrite Nat.mul_comm. apply Nat.div_mod_eq. }
  assert (Hc : (c < ncols im)%nat) by (apply Nat.mod_upper_bound; lia).
  assert (Hr : (r < nrows im)%nat).
  { apply Nat.Div0.div_lt_upper_bound. rewrite Nat.mul_comm. exact Hlt. }
  assert (Hpix : pixel im r c = Some a).
  { unfold pixel. rewrite decide_True by auto. now rewrite <- Hkrc. }
  unfold similarity_transform in Hout.
  rewrite (identity_matrix deg2rad_0 cos_0 sin_0) in Hout.
  rewrite identity_offset in Hout by lia.
  injection Hout as <-.
  pose proof (pixel_affine_transform im (Mat2 1 0 (- 0) 1) (Vec2 0 0) r c Hr Hc) as Hp.
  unfold pixel in Hp. rewrite decide_True in Hp by auto.
  change (ncols (affine_transform im (Mat2 1 0 (- 0) 1) (Vec2 0 0)))
    with (ncols im) in Hp.
  rewrite <- Hkrc in Hp.
  rewrite identity_source_coord in Hp by lia. cbn [v0 v1] in Hp.
  pose proof (eq_trans (eq_sym Ea') Hp) as Heq. injection Heq as ->.
  destruct (bilinear_grid im r c a Hf ltac:(lia) ltac:(lia) Hpix) as [He Hs].
  apply fsquare_diff_eqb; auto.
  eapply pixel_finite; eauto.
Qed.

End IdentityCost.

(** *** Scaling by a power of two *)

(** Dividing a normal number by [2^k] lowers its exponent by [k]. *)
Lemma SFdiv_pow2_exact s m e k :
  Zpos (digits2_pos m) = 53%Z -> (SpecFloat.emin prec emax <= e - k - 1)%Z ->
  (e - k <= emax - prec)%Z ->
  SF64div (S754_finite s m e) (S754_finite false 4503599627370496 (k - 52))
  = S754_finite s m (e - k).
Proof.
  intros Hd Hlo Hhi. unfold SpecFloat.emin, prec, emax in Hlo, Hhi.
  unfold SF64div, SFdiv, SFdiv_core_binary.
  change (Zdigits2 (Z.pos m)) with (Zpos (digits2_pos m)). rewrite Hd.
  change (Zdigits2 4503599627370496) with 53%Z.
  replace (Z.min (fexp prec emax (53 + e - (53 + (k - 52)))) (e - (k - 52)))
    with (e - k - 1)%Z by (unfold fexp, SpecFloat.emin, prec, emax; lia).
  replace (e - (k - 52) - (e - k - 1))%Z with 53%Z by lia.
  rewrite div_eucl_pow2.
  change (new_location 4503599627370496 0) with loc_Exact.
  rewrite xorb_false_r.
  unfold binary_round_aux, shr_fexp.
  change (Zdigits2 (Z.pos m~0)) with (Zpos (Pos.succ (digits2_pos m))).
  rewrite Pos2Z.inj_succ, Hd.
  replace (fexp prec emax (Z.succ 53 + (e - k - 1)) - (e - k - 1))%Z with 1%Z
    by (unfold fexp, SpecFloat.emin, prec, emax; lia).
  cbn [shr shr_record_of_loc SpecFloat.iter_pos shr_1 shr_m shr_r shr_s
       loc_of_shr_record round_nearest_even orb].
  change (Zdigits2 (Z.pos m)) with (Zpos (digits2_pos m)). rewrite Hd.
  replace (fexp prec emax (53 + (e - k - 1 + 1)) - (e - k - 1 + 1))%Z with 0%Z
    by (unfold fexp, SpecFloat.emin, prec, emax; lia).
  cbn [shr shr_record_of_loc shr_m].
  replace (e - k - 1 + 1)%Z with (e - k)%Z by lia.
  destruct (e - k <=? emax - prec)%Z eqn:E; [reflexivity|].
  apply Z.leb_gt in E. unfold prec, emax in E. lia.
Qed.

(** Multiplying a normal number by [2^k] raises its exponent by [k]. *)
Lemma SFmul_pow2_exact s m e k :
  Zpos (digits2_pos m) = 53%Z -> (SpecFloat.emin prec emax <= e + k)%Z ->
  (e + k <= emax - prec)%Z ->
  SF64mul (S754_finite s m e) (S754_finite false 4503599627370496 (k - 52))
  = S754_finite s m (e + k).
Proof.
  intros Hd Hlo Hhi. unfold SpecFloat.emin, prec, emax in Hlo, Hhi.
  unfold SF64mul, SFmul. rewrite xorb_false_r, Pos.mul_comm.
  change (4503599627370496 * m)%positive with (Pos.iter xO m 52).
  unfold binary_round_aux, shr_fexp.
  change (Zdigits2 (Z.pos (Pos.iter xO m 52)))
    with (Zpos (digits2_pos (Pos.iter xO m 52))).
  rewrite digits2_pos_iter_xO, Hd.
  replace (fexp prec emax (53 + 52 + (e + (k - 52))) - (e + (k - 52)))%Z with 52%Z
    by (unfold fexp, SpecFloat.emin, prec, emax; lia).
  cbn [shr shr_record_of_loc SpecFloat.iter_pos shr_1 Pos.iter shr_m shr_r shr_s
       loc_of_shr_record round_nearest_even orb Zdigits2].
  rewrite Hd.
  replace (fexp prec emax (53 + (e + (k - 52) + 52)) - (e + (k - 52) + 52))%Z with 0%Z
    by (unfold fexp, SpecFloat.emin, prec, emax; lia).
  cbn [shr shr_record_of_loc shr_m].
  replace (e + (k - 52) + 52)%Z with (e + k)%Z by lia.
  destruct (e + k <=? emax - prec)%Z eqn:E; [reflexivity|].
  apply Z.leb_gt in E. unfold prec, emax in E. lia.
Qed.

(** The scale factor of a level of the five-level pyramid. *)
Lemma scale_factor_spec (level : nat) :
  (level <= 4)%nat ->
  Prim2SF (Z2F (2 ^ Z.of_nat level))
  = S754_finite false 4503599627370496 (Z.of_nat level - 52).
Proof.
  intros H. do 5 (destruct level as [|level]; [reflexivity|]). lia.
Qed.

(** A float of magnitude at least [1e-300] is a normal number. *)
Lemma normal_of_magnitude x :
  is_finite x = true -> (1e-300 <=? abs x) = true ->
  exists s m e, Prim2SF x = S754_finite s m e /\
    Zpos (digits2_pos m) = 53%Z /\ (-1049 <= e <= emax - prec)%Z.
Proof.
  intros Hf Hle. pose proof (Prim2SF_valid x) as Hv.
  rewrite leb_spec, abs_spec in Hle. unfold is_finite in Hf.
  change (Prim2SF 1e-300) with (S754_finite false 6032057205060441 (-1049)) in Hle.
  destruct (Prim2SF x) as [sz| | |s m e]; try discriminate.
  exists s, m, e. split; [reflexivity|].
  cbn [valid_binary] in Hv. unfold bounded, canonical_mantissa in Hv.
  apply andb_prop in Hv as [Hc He]. apply Z.eqb_eq in Hc. apply Z.leb_le in He.
  assert (Hge : (-1049 <= e)%Z).
  { unfold SFleb, SFabs, SFcompare in Hle.
    destruct (Z.compare_spec (-1049) e); first [lia|discriminate]. }
  unfold fexp, SpecFloat.emin, prec, emax in Hc. unfold prec, emax in *.
  split; lia.
Qed.

(** A float of magnitude at most [1e300] has a small exponent. *)
Lemma exponent_of_magnitude x s m e :
  Prim2SF x = S754_finite s m e -> (abs x <=? 1e300) = true -> (e <= 944)%Z.
Proof.
  intros Hs Hle. rewrite leb_spec, abs_spec, Hs in Hle.
  change (Prim2SF 1e300) with (S754_finite false 6724873095247260 944) in Hle.
  unfold SFleb, SFabs, SFcompare in Hle.
  destruct (Z.compare_spec e 944); first [lia|discriminate].
Qed.

Lemma rescale_normal (level : nat) (x : float) :
  (level <= 4)%nat -> is_finite x = true -> (1e-300 <=? abs x) = true ->
  x / Z2F (2 ^ Z.of_nat level) * Z2F (2 ^ Z.of_nat level) = x.
Proof.
  intros Hl Hf Hx.
  destruct (normal_of_magnitude x Hf Hx) as (s & m & e & Hs & Hd & He).
  unfold prec, emax in He.
  apply Prim2SF_inj. rewrite mul_spec, div_spec, (scale_factor_spec level Hl), Hs.
  rewrite SFdiv_pow2_exact
    by (try assumption; unfold SpecFloat.emin, prec, emax; lia).
  rewrite SFmul_pow2_exact
    by (try assumption; unfold SpecFloat.emin, prec, emax; lia).
  f_equal. lia.
Qed.

Lemma rescale_zero (level : nat) (x : float) :
  (level <= 4)%nat -> (x =? 0) = true ->
  x / Z2F (2 ^ Z.of_nat level) * Z2F (2 ^ Z.of_nat level) = x.
Proof.
  intros Hl Hx. rewrite FloatAxioms.eqb_spec in Hx.
  change (Prim2SF 0) with (S754_zero false) in Hx.
  apply Prim2SF_inj. rewrite mul_spec, div_spec, (scale_factor_spec level Hl).
  destruct (Prim2SF x) as [[]|[]| |[] m e]; try discriminate Hx; reflexivity.
Qed.

Lemma handoff_normal (level : nat) (x : float) :
  (level < 4)%nat -> is_finite x = true ->
  (1e-300 <=? abs x) = true -> (abs x <=? 1e300) = true ->
  x * Z2F (2 ^ Z.of_nat (S level)) / Z2F (2 ^ Z.of_nat level) = x * 2.
Proof.
  intros Hl Hf Hx Hy.
  destruct (normal_of_magnitude x Hf Hx) as (s & m & e & Hs & Hd & He).
  pose proof (exponent_of_magnitude x s m e Hs Hy) as Hup.
  unfold prec, emax in He.
  apply Prim2SF_inj.
  rewrite div_spec, !mul_spec, (scale_factor_spec level), (scale_factor_spec (S level)), Hs
    by lia.
  change (Prim2SF 2) with (S754_finite false 4503599627370496 (1 - 52)).
  rewrite !SFmul_pow2_exact
    by (try assumption; unfold SpecFloat.emin, prec, emax; lia).
  rewrite SFdiv_pow2_exact
    by (try assumption; unfold SpecFloat.emin, prec, emax; lia).
  f_equal. lia.
Qed.

Lemma handoff_zero (level : nat) (x : float) :
  (level < 4)%nat -> (x =? 0) = true ->
  x * Z2F (2 ^ Z.of_nat (S level)) / Z2F (2 ^ Z.of_nat level) = x * 2.
Proof.
  intros Hl Hx. rewrite FloatAxioms.eqb_spec in Hx.
  change (Prim2SF 0) with (S754_zero false) in Hx.
  apply Prim2SF_inj.
  rewrite div_spec, !mul_spec, (scale_factor_spec level), (scale_factor_spec (S level))
    by lia.
  change (Prim2SF 2) with (S754_finite false 4503599627370496 (1 - 52)).
  destruct (Prim2SF x) as [[]|[]| |[] m e]; try discriminate Hx; reflexivity.
Qed.

(** X12: dividing the translation by the scale factor of a level and
    multiplying it back gives the parameters one started from, bit for bit,
    when each translation entry is a zero or a finite number of magnitude at
    least [1e-300]: what the driver does around the solver adds no rounding
    error of its own. *)
Theorem translation_rescale_round_trip (level : nat) (params : list float) :
  (level <= 4)%nat ->
  Forall (fun x => (x =? 0) = true \/
                   is_finite x = true /\ (1e-300 <=? abs x) = true)
         (drop 2 params) ->
  mul_from 2 (div_from 2 params (Z2F (2 ^ Z.of_nat level)))
    (Z2F (2 ^ Z.of_nat level)) = params.
Proof.
  intros Hl H. unfold mul_from, div_from, vdivs.
  destruct params as [|s [|theta rest]]; [reflexivity..|].
  change (drop 2 (s :: theta :: rest)) with rest in *.
  change (take 2 (s :: theta :: rest)) with [s; theta].
  cbn [app]. change (s :: theta :: ?l) with ([s; theta] ++ l).
  rewrite take_app_length', drop_app_length' by reflexivity.
  cbn [app]. do 2 f_equal.
  induction H as [|x l Hx _ IH]; [reflexivity|].
  cbn [fmap list_fmap]. f_equal; [|exact IH].
  destruct Hx as [Hx|[Hf Hx]]; [now apply rescale_zero|now apply rescale_normal].
Qed.

(** X13: from one level to the next finer one the driver multiplies the
    translation by [2^(level+1)] and then divides it by [2^level]; for
    entries that are zeros or finite numbers of magnitude between [1e-300]
    and [1e300] this doubles them exactly. *)
Theorem translation_level_handoff (level : nat) (params : list float) :
  (level < 4)%nat ->
  Forall (fun x => (x =? 0) = true \/
                   is_finite x = true /\ (1e-300 <=? abs x) = true /\
                   (abs x <=? 1e300) = true)
         (drop 2 params) ->
  div_from 2 (mul_from 2 params (Z2F (2 ^ Z.of_nat (S level))))
    (Z2F (2 ^ Z.of_nat level)) = mul_from 2 params 2.
Proof.
  intros Hl H. unfold mul_from, div_from, vdivs.
  destruct params as [|s [|theta rest]]; [reflexivity..|].
  change (drop 2 (s :: theta :: rest)) with rest in *.
  change (take 2 (s :: theta :: rest)) with [s; theta].
  cbn [app]. change (s :: theta :: ?l) with ([s; theta] ++ l).
  rewrite take_app_length', drop_app_length' by reflexivity.
  cbn [app]. do 2 f_equal.
  induction H as [|x l Hx _ IH]; [reflexivity|].
  cbn [fmap list_fmap]. f_equal; [|exact IH].
  destruct Hx as [Hx|(Hf & Hx & Hy)]; [now apply handoff_zero|now apply handoff_normal].
Qed.

(** *** A pure translation *)

Lemma fmul_n0_finite x : is_finite x = true -> fzero ((- 0) * x) = true.
Proof.
  unfold is_finite, fzero. intros H. rewrite mul_spec.
  change (Prim2SF (- 0)) with (S754_zero true).
  now destruct (Prim2SF x) as [[]|[]| |[] m e].
Qed.


Lemma fadd_zero_l z x :
  is_finite x = true -> (x =? 0) = false -> fzero z = true -> z + x = x.
Proof.
  unfold is_finite, fzero. rewrite FloatAxioms.eqb_spec.
  change (Prim2SF 0) with (S754_zero false).
  intros Hx Hn Hz. apply Prim2SF_inj. rewrite add_spec.
  destruct (Prim2SF z) as [sz| | |]; try discriminate.
  destruct (Prim2SF x) as [[]|[]| |[] m e]; try discriminate; reflexivity.
Qed.

Lemma fsub_0_l x : is_finite x = true -> (x =? 0) = false -> 0 - x = - x.
Proof.
  unfold is_finite. rewrite FloatAxioms.eqb_spec.
  change (Prim2SF 0) with (S754_zero false).
  intros Hx Hn. apply Prim2SF_inj. rewrite sub_spec, opp_spec.
  change (Prim2SF 0) with (S754_zero false).
  destruct (Prim2SF x) as [[]|[]| |[] m e]; try discriminate; reflexivity.
Qed.

(** *** Sums of integers *)

Lemma iter_pos_shr_1_exact k : forall q,
  SpecFloat.iter_pos shr_1 k (Build_shr_record (Zpos (Pos.iter xO q k)) false false)
  = Build_shr_record (Zpos q) false false.
Proof.
  induction k as [k IH|k IH|]; intros q; cbn [SpecFloat.iter_pos Pos.iter].
  - cbn [shr_1 orb]. now rewrite !IH.
  - now rewrite !IH.
  - reflexivity.
Qed.

Lemma Zpos_iter_xO_eq m p k :
  Zpos m = (Zpos p * 2 ^ Zpos k)%Z -> m = Pos.iter xO p k.
Proof. intros H. apply Pos2Z.inj. now rewrite Zpos_iter_xO. Qed.

(** Rounding a number that is a float of the format, given with another
    exponent. *)
Lemma binary_round_exact s p e m e' :
  bounded prec emax m e' = true ->
  ((e' <= e)%Z /\ Zpos m = (Zpos p * 2 ^ (e - e'))%Z \/
   (e < e')%Z /\ Zpos p = (Zpos m * 2 ^ (e' - e))%Z) ->
  binary_round prec emax s p e = S754_finite s m e'.
Proof.
  intros Hb H. pose proof Hb as Hb'. unfold bounded, canonical_mantissa in Hb'.
  apply andb_prop in Hb' as [Hc He]. apply Z.eqb_eq in Hc.
  unfold binary_round.
  destruct H as [[Hle Hm]|[Hlt Hp]].
  - destruct (e - e')%Z as [|d|d] eqn:Ed; try lia.
    + assert (e' = e) by lia. subst e'.
      rewrite Z.mul_1_r in Hm. injection Hm as ->.
      rewrite Hc. unfold shl_align. rewrite Z.sub_diag.
      now apply binary_round_aux_canonical.
    + apply Zpos_iter_xO_eq in Hm. subst m.
      rewrite digits2_pos_iter_xO in Hc.
      replace (Zpos (digits2_pos p) + e)%Z with (Zpos (digits2_pos p) + Zpos d + e')%Z
        by lia.
      rewrite Hc. unfold shl_align.
      replace (e' - e)%Z with (Zneg d) by lia.
      now apply binary_round_aux_canonical.
  - destruct (e' - e)%Z as [|k|k] eqn:Ek; try lia.
    apply Zpos_iter_xO_eq in Hp. subst p.
    rewrite digits2_pos_iter_xO.
    replace (Zpos (digits2_pos m) + Zpos k + e)%Z with (Zpos (digits2_pos m) + e')%Z
      by lia.
    rewrite Hc. unfold shl_align. rewrite Ek.
    unfold binary_round_aux, shr_fexp.
    change (Zdigits2 (Z.pos (Pos.iter xO m k)))
      with (Zpos (digits2_pos (Pos.iter xO m k))).
    rewrite digits2_pos_iter_xO.
    replace (Zpos (digits2_pos m) + Zpos k + e)%Z with (Zpos (digits2_pos m) + e')%Z
      by lia.
    rewrite Hc, Ek.
    cbn [shr shr_record_of_loc]. rewrite iter_pos_shr_1_exact.
    cbn [shr_m shr_r shr_s loc_of_shr_record round_nearest_even Zdigits2].
    replace (e + Zpos k)%Z with e' by lia.
    rewrite Hc, Z.sub_diag.
    cbn [shr shr_record_of_loc shr_m]. now rewrite He.
Qed.

(** The float of a nonzero integer of magnitude below [2^53]. *)
Lemma Z2F_repr n :
  n <> 0%Z -> (Z.abs n < 2 ^ 53)%Z ->
  exists m e,
    Prim2SF (Z2F n) = S754_finite (n <? 0)%Z m e /\
    bounded prec emax m e = true /\ (-52 <= e <= 0)%Z /\
    Zpos m = (Z.abs n * 2 ^ (- e))%Z.
Proof.
  intros Hn Hlt. destruct (Z.ltb_spec n 0) as [Hneg|Hpos].
  - destruct (Z2F_exact (- n)) as (m & e & Hm & Hd & He & Hv); [lia|].
    exists m, e. pose proof (Prim2SF_valid (Z2F (- n))) as Hb. rewrite Hm in Hb.
    assert (E : Z2F n = - Z2F (- n)).
    { unfold Z2F. destruct (Z.ltb_spec n 0); [|lia].
      destruct (Z.ltb_spec (- n) 0); [lia|reflexivity]. }
    rewrite E, opp_spec, Hm. repeat split; try assumption; try lia;
      rewrite Hv; f_equal; lia.
  - destruct (Z2F_exact n) as (m & e & Hm & Hd & He & Hv); [lia|].
    exists m, e. pose proof (Prim2SF_valid (Z2F n)) as Hb. rewrite Hm in Hb.
    repeat split; try assumption; try lia;
      rewrite Hv; f_equal; lia.
Qed.

Lemma shl_align_value m e ez :
  (ez <= e)%Z -> Zpos (fst (shl_align m e ez)) = (Zpos m * 2 ^ (e - ez))%Z.
Proof.
  intros H. unfold shl_align.
  destruct (ez - e)%Z as [|d|d] eqn:E; try lia; cbn [fst].
  - replace (e - ez)%Z with 0%Z by lia. lia.
  - rewrite Zpos_iter_xO. f_equal. f_equal. lia.
Qed.

Lemma cond_Zopp_sign n k : (0 < k)%Z ->
  cond_Zopp (n <? 0)%Z (Z.abs n * k) = (n * k)%Z.
Proof. intros Hk. destruct (Z.ltb_spec n 0); simpl; lia. Qed.

(** Adding the floats of two integers gives the float of their sum, when the
    three of them are below [2^53] in magnitude. *)
Lemma Z2F_add_exact x y :
  (Z.abs x < 2 ^ 53)%Z -> (Z.abs y < 2 ^ 53)%Z -> (Z.abs (x + y) < 2 ^ 53)%Z ->
  Z2F x + Z2F y = Z2F (x + y).
Proof.
  intros Hx Hy Hxy. apply Prim2SF_inj. rewrite add_spec.
  destruct (Z.eq_dec x 0%Z) as [->|Hx0].
  { change (Prim2SF (Z2F 0)) with (S754_zero false). rewrite Z.add_0_l.
    destruct (Z.eq_dec y 0%Z) as [->|Hy0]; [reflexivity|].
    destruct (Z2F_repr y Hy0 Hy) as (m & e & -> & _). reflexivity. }
  destruct (Z2F_repr x Hx0 Hx) as (mx & ex & Ex & _ & Hex & Hmx).
  destruct (Z.eq_dec y 0%Z) as [->|Hy0].
  { change (Prim2SF (Z2F 0)) with (S754_zero false). rewrite Z.add_0_r, Ex.
    reflexivity. }
  destruct (Z2F_repr y Hy0 Hy) as (my & ey & Ey & _ & Hey & Hmy).
  rewrite Ex, Ey. unfold SF64add, SFadd.
  set (ez := Z.min ex ey).
  assert (Hez : (-52 <= ez <= 0)%Z) by (unfold ez; lia).
  rewrite !shl_align_value by (unfold ez; lia).
  rewrite Hmx, Hmy, <- !Z.mul_assoc, <- !Z.pow_add_r by lia.
  replace (- ex + (ex - ez))%Z with (- ez)%Z by lia.
  replace (- ey + (ey - ez))%Z with (- ez)%Z by lia.
  assert (HK : (0 < 2 ^ (- ez))%Z) by (apply Z.pow_pos_nonneg; lia).
  rewrite !cond_Zopp_sign by assumption.
  rewrite <- Z.mul_add_distr_r.
  destruct (Z.eq_dec (x + y)%Z 0%Z) as [E0|Hs0].
  { rewrite E0. reflexivity. }
  destruct (Z2F_repr (x + y) Hs0 Hxy) as (m & e' & -> & Hb & He' & Hm).
  assert (Hcase : forall p, Zpos p = (Z.abs (x + y) * 2 ^ (- ez))%Z ->
    binary_round prec emax (x + y <? 0)%Z p ez = S754_finite (x + y <? 0)%Z m e').
  { intros p Hp. apply binary_round_exact; [exact Hb|].
    destruct (Z_le_gt_dec e' ez) as [Hle|Hgt]; [left|right]; (split; [lia|]).
    - rewrite Hm, Hp, <- Z.mul_assoc, <- Z.pow_add_r by lia.
      f_equal. f_equal. lia.
    - rewrite Hm, Hp, <- Z.mul_assoc, <- Z.pow_add_r by lia.
      f_equal. f_equal. lia. }
  unfold binary_normalize.
  destruct ((x + y) * 2 ^ (- ez))%Z as [|p|p] eqn:Ep.
  - apply Z.eq_mul_0 in Ep. lia.
  - assert (0 < x + y)%Z by nia.
    destruct (Z.ltb_spec (x + y) 0) as [|_]; [lia|].
    apply Hcase. rewrite Z.abs_eq by lia. lia.
  - assert (x + y < 0)%Z by nia.
    destruct (Z.ltb_spec (x + y) 0) as [_|]; [|lia].
    apply Hcase. rewrite Z.abs_neq by lia. lia.
Qed.

Lemma fopp_involutive x : - - x = x.
Proof.
  apply Prim2SF_inj. rewrite !opp_spec.
  now destruct (Prim2SF x) as [[]|[]| |[] m e].
Qed.

Lemma Z2F_opp a : a <> 0%Z -> - Z2F a = Z2F (- a).
Proof.
  intros Ha. unfold Z2F.
  destruct (Z.ltb_spec a 0), (Z.ltb_spec (- a) 0); try lia.
  - apply fopp_involutive.
  - now rewrite Z.opp_involutive.
Qed.

Lemma Z2F_finite n : (Z.abs n < 2 ^ 53)%Z -> is_finite (Z2F n) = true.
Proof.
  intros H. destruct (Z.eq_dec n 0%Z) as [->|Hn]; [reflexivity|].
  destruct (Z2F_repr n Hn H) as (m & e & E & _). unfold is_finite. now rewrite E.
Qed.

Lemma Z2F_nonzero n :
  n <> 0%Z -> (Z.abs n < 2 ^ 53)%Z ->
  (Z2F n =? 0) = false /\ Prim2SF (Z2F n) <> S754_zero true.
Proof.
  intros Hn H. destruct (Z2F_repr n Hn H) as (m & e & E & _).
  rewrite FloatAxioms.eqb_spec, E. split; [|discriminate].
  now destruct (n <? 0)%Z.
Qed.

Lemma Z2F_floor n : (Z.abs n < 2 ^ 53)%Z -> ffloor (Z2F n) = Some n.
Proof.
  intros H. destruct (Z.eq_dec n 0%Z) as [->|Hn]; [reflexivity|].
  destruct (Z2F_repr n Hn H) as (m & e & E & _ & He & Hm).
  unfold ffloor. rewrite E. cbn [SFfloor]. f_equal.
  rewrite Z.shiftl_div_pow2, Hm by lia.
  rewrite cond_Zopp_sign by (apply Z.pow_pos_nonneg; lia).
  apply Z.div_mul. apply Z.pow_nonzero; lia.
Qed.

Lemma fsub_0_zero z : fzero z = true -> 0 - z = 0.
Proof.
  unfold fzero. intros H. apply Prim2SF_inj. rewrite sub_spec.
  change (Prim2SF 0) with (S754_zero false).
  now destruct (Prim2SF z) as [[]| | |].
Qed.

Lemma fadd_0_r_finite x : is_finite x = true -> Prim2SF x <> S754_zero true -> x + 0 = x.
Proof. intros Hf Hn. now apply fadd_zero_r. Qed.

(** The source coordinate along one axis: the index minus the shift. *)
Lemma shifted_coord (n : nat) (t : Z) (z : float) :
  (Z.of_nat n < 2 ^ 52)%Z -> (Z.abs t < 2 ^ 52)%Z -> fzero z = true ->
  Z2F (Z.of_nat n) + (0 - (Z2F t + z)) = Z2F (Z.of_nat n - t) /\
  Z2F (Z.of_nat n) + (0 - (z + Z2F t)) = Z2F (Z.of_nat n - t).
Proof.
  intros Hn Ht Hz.
  assert (H53 : (2 ^ 53 = 2 * 2 ^ 52)%Z) by reflexivity.
  destruct (Z.eq_dec t 0%Z) as [->|Ht0].
  - change (Z2F 0) with 0. rewrite Z.sub_0_r.
    assert (Hn' : Z2F (Z.of_nat n) + 0 = Z2F (Z.of_nat n)).
    { destruct (Z2F_nat_spec n) as [Hp _]; [lia|]. now apply fadd_0_r_plain. }
    rewrite !fsub_0_zero by (apply fadd_zero_zero; auto).
    now split.
  - destruct (Z2F_nonzero t Ht0) as [Hne Hnz]; [lia|].
    pose proof (Z2F_finite t ltac:(lia)) as Hf.
    rewrite (fadd_zero_r (Z2F t) z), (fadd_zero_l z (Z2F t)) by assumption.
    rewrite fsub_0_l, Z2F_opp by assumption.
    rewrite Z2F_add_exact by lia. now split.
Qed.

(** Interpolation at an integer position, inside the image or not: the
    sample there (the fill value outside), plus three zeros. *)
Lemma bilinear_at_integer im (y x : Z) :
  finite_image im -> (Z.abs y < 2 ^ 53)%Z -> (Z.abs x < 2 ^ 53)%Z ->
  (bilinear im (Z2F y) (Z2F x) =? pixel_or_fill im y x) = true /\
  (Prim2SF (pixel_or_fill im y x) <> S754_zero true ->
   bilinear im (Z2F y) (Z2F x) = pixel_or_fill im y x).
Proof.
  intros Hf Hy Hx.
  unfold bilinear. rewrite (Z2F_floor y Hy), (Z2F_floor x Hx).
  rewrite !fsub_diag by now apply Z2F_finite.
  change ((1 - 0) * (1 - 0)) with 1.
  change ((1 - 0) * 0) with 0.
  change (0 * (1 - 0)) with 0.
  change (0 * 0) with 0.
  rewrite fmul_1_l.
  pose proof (pixel_or_fill_finite im y x Hf) as Hvf.
  pose proof (fmul_0_finite _ (pixel_or_fill_finite im y (x + 1) Hf)) as Hz1.
  pose proof (fmul_0_finite _ (pixel_or_fill_finite im (y + 1) x Hf)) as Hz2.
  pose proof (fmul_0_finite _ (pixel_or_fill_finite im (y + 1) (x + 1) Hf)) as Hz3.
  set (v := pixel_or_fill im y x) in *.
  set (z1 := 0 * pixel_or_fill im y (x + 1)) in *.
  set (z2 := 0 * pixel_or_fill im (y + 1) x) in *.
  set (z3 := 0 * pixel_or_fill im (y + 1) (x + 1)) in *.
  assert (Hexact : Prim2SF v <> S754_zero true -> v + z1 + z2 + z3 = v).
  { intros Hn.
    rewrite (fadd_zero_r v z1), (fadd_zero_r v z2) by assumption.
    now apply fadd_zero_r. }
  split; [|exact Hexact].
  destruct (Prim2SF v) as [[]| | |] eqn:Ev;
    try (rewrite Hexact by congruence; now apply feqb_refl).
  apply fzero_eqb; [|unfold fzero; now rewrite Ev].
  repeat apply fadd_zero_zero; auto. unfold fzero. now rewrite Ev.
Qed.

Section Translation.

Hypothesis deg2rad_0 : deg2rad 0 = 0.
Hypothesis cos_0 : cos (- 0) = 1.
Hypothesis sin_0 : sin (- 0) = - 0.


Lemma translation_source_coord offset (r c : nat) :
  (Z.of_nat r < 2 ^ 53)%Z -> (Z.of_nat c < 2 ^ 53)%Z ->
  source_coord (Mat2 1 0 (- 0) 1) offset r c
  = Vec2 (Z2F (Z.of_nat r) + v0 offset) (Z2F (Z.of_nat c) + v1 offset).
Proof.
  intros Hr Hc. unfold source_coord, mat_vec. cbn [m00 m01 m10 m11 v0 v1].
  destruct (Z2F_nat_spec r Hr) as [Hpr _]. destruct (Z2F_nat_spec c Hc) as [Hpc _].
  rewrite !fmul_1_l, (fmul_0_plain _ Hpc), (fmul_n0_plain _ Hpr).
  rewrite (fadd_n0_l_plain _ Hpc), !(fadd_0_r_plain _ Hpr).
  reflexivity.
Qed.


Lemma integer_shift_source_coord im (a b : Z) (r c : nat) :
  (Z.of_nat (nrows im) < 2 ^ 52)%Z -> (Z.of_nat (ncols im) < 2 ^ 52)%Z ->
  (Z.abs a < 2 ^ 52)%Z -> (Z.abs b < 2 ^ 52)%Z ->
  (r < nrows im)%nat -> (c < ncols im)%nat ->
  source_coord (Mat2 1 0 (- 0) 1)
    (transform_offset im (Mat2 1 0 (- 0) 1) (Z2F b) (Z2F a)) r c
  = Vec2 (Z2F (Z.of_nat r - a)) (Z2F (Z.of_nat c - b)).
Proof.
  intros Hnr Hnc Ha Hb Hr Hc.
  assert (H53 : (2 ^ 53 = 2 * 2 ^ 52)%Z) by reflexivity.
  rewrite translation_source_coord by lia.
  unfold transform_offset, vec_sub, mat_vec. cbn [m00 m01 m10 m11 v0 v1].
  pose proof (center_plain (nrows im) ltac:(lia)) as Hpr.
  pose proof (center_plain (ncols im) ltac:(lia)) as Hpc.
  set (c0 := Z2F (Z.of_nat (nrows im)) / 2.0) in *.
  set (c1 := Z2F (Z.of_nat (ncols im)) / 2.0) in *.
  rewrite !fmul_1_l, (fmul_0_plain c1), (fmul_n0_plain c0) by assumption.
  rewrite (fadd_0_r_plain c0), (fadd_n0_l_plain c1) by assumption.
  rewrite !fsub_diag by now apply fplain_finite.
  pose proof (fmul_0_finite (Z2F b) (Z2F_finite b ltac:(lia))) as Hz0.
  pose proof (fmul_n0_finite (Z2F a) (Z2F_finite a ltac:(lia))) as Hz1.
  destruct (shifted_coord r a (0 * Z2F b)) as [-> _]; [lia..|assumption|].
  destruct (shifted_coord c b (- 0 * Z2F a)) as [_ ->]; [lia..|assumption|].
  reflexivity.
Qed.

(** X15: a translation by whole pixels shifts the image: with the
    parameters [1; 0; b; a] the output pixel [(r, c)] compares equal to the
    input pixel [(r - a, c - b)], or to 0 where that position is outside the
    input, and is that value bit for bit unless it is a negative zero
    (finite samples; dimensions and shifts below [2^52]; [cos] and [sin]
    exact at 0). *)
Theorem similarity_transform_integer_shift im (a b : Z) (r c : nat) :
  finite_image im ->
  (Z.of_nat (nrows im) < 2 ^ 52)%Z -> (Z.of_nat (ncols im) < 2 ^ 52)%Z ->
  (Z.abs a < 2 ^ 52)%Z -> (Z.abs b < 2 ^ 52)%Z ->
  (r < nrows im)%nat -> (c < ncols im)%nat ->
  exists out v',
    similarity_transform im [1; 0; Z2F b; Z2F a] = Some out /\
    pixel out r c = Some v' /\
    (v' =? pixel_or_fill im (Z.of_nat r - a) (Z.of_nat c - b)) = true /\
    (Prim2SF (pixel_or_fill im (Z.of_nat r - a) (Z.of_nat c - b)) <> S754_zero true ->
     v' = pixel_or_fill im (Z.of_nat r - a) (Z.of_nat c - b)).
Proof.
  intros Hf Hnr Hnc Ha Hb Hr Hc.
  assert (H53 : (2 ^ 53 = 2 * 2 ^ 52)%Z) by reflexivity.
  exists (affine_transform im (Mat2 1 0 (- 0) 1)
            (transform_offset im (Mat2 1 0 (- 0) 1) (Z2F b) (Z2F a))),
         (bilinear im (Z2F (Z.of_nat r - a)) (Z2F (Z.of_nat c - b))).
  split.
  { unfold similarity_transform.
    now rewrite (identity_matrix deg2rad_0 cos_0 sin_0). }
  split.
  { rewrite pixel_affine_transform by assumption.
    now rewrite integer_shift_source_coord by assumption. }
  apply bilinear_at_integer; [assumption|lia..].
Qed.

End Translation.

End Registration.

(** * The properties on sample inputs *)


Lemma create_pyramid_levels_witness :
  Z.of_nat (length (create_pyramid sample_zoom sample_fixed 3)) = 3%Z /\
  create_pyramid sample_zoom sample_fixed 3 !! 0%nat = Some sample_fixed /\
  forall i, (Z.of_nat i + 1 < 3)%Z ->
    exists prev, create_pyramid sample_zoom sample_fixed 3 !! i = Some prev /\
                 create_pyramid sample_zoom sample_fixed 3 !! S i
                 = Some (sample_zoom prev 0.5).
Proof. apply (create_pyramid_levels sample_zoom sample_fixed 3). lia. Defined.

Lemma create_pyramid_below_one_witness :
  create_pyramid sample_zoom sample_pixel (-2) = [sample_pixel].
Proof. apply create_pyramid_below_one. lia. Defined.

(** C6, as claimed: a call with [levels < 1] would be rejected, as the
    specification's builder rejects it.  The call with [levels = 0] returns
    a pyramid. *)
Lemma create_pyramid_rejects_counterexample :
  ~ (forall (zoom : image -> float -> image) image0 levels, (levels < 1)%Z ->
       Some (create_pyramid zoom image0 levels) = buildPyramid zoom image0 levels).
Proof.
  intros H. specialize (H sample_zoom sample_pixel 0%Z).
  discriminate H. lia.
Qed.


Lemma similarity_transform_zero_scale_witness :
  inverse_scale 0 = 1 /\
  exists out,
    similarity_transform sample_cos sample_sin sample_deg2rad sample_fixed [0; 30; 1; 2]
    = Some out /\ shape out = shape sample_fixed.
Proof.
  destruct (proj1 (similarity_transform_zero_scale sample_cos sample_sin sample_deg2rad
                     sample_fixed 0 30 1 2) eq_refl) as (Hs & out & Hout & Hshape & _).
  split; [exact Hs|]. exists out. split; [exact Hout|exact Hshape].
Defined.

Lemma compute_gradient_central_difference_witness :
  exists grad,
    compute_gradient sample_cos sample_sin sample_deg2rad sample_fixed sample_moving
      [1; 0; 0; 0] default_h = Some grad /\
    length grad = 4%nat.
Proof.
  destruct (compute_gradient_central_difference sample_cos sample_sin sample_deg2rad
              sample_fixed sample_moving [1; 0; 0; 0] default_h eq_refl eq_refl)
    as (_ & grad & Hgrad & Hlen & _).
  exists grad. split; [exact Hgrad|exact Hlen].
Defined.

Lemma adam_optimizer_frozen_witness :
  exists params cost_history,
    adam_optimizer sample_cos sample_sin sample_deg2rad sample_fixed sample_moving
      [1; 0; 0; 0] 0.1 3 [true; false; true; true]
      default_beta1 default_beta2 default_epsilon = Some (params, cost_history) /\
    params !! 1%nat = Some 0.
Proof.
  pose proof (adam_optimizer_frozen sample_cos sample_sin sample_deg2rad
                sample_fixed sample_moving [1; 0; 0; 0] 0.1 3 [true; false; true; true]
                default_beta1 default_beta2 default_epsilon) as [Hfrozen Htotal].
  destruct (Htotal eq_refl eq_refl eq_refl) as [[params cost_history] Hrun].
  exists params, cost_history. split; [exact Hrun|].
  apply (Hfrozen params cost_history Hrun 1%nat). reflexivity.
Defined.



(** The run behind it: with [beta1 = 1.0] every parameter is NaN after one
    iteration. *)
Example adam_beta1_one_run :
  adam_optimizer sample_cos sample_sin sample_deg2rad sample_fixed sample_moving
    [1; 0; 0; 0] 0.1 1 [true; true; true; true] 1 default_beta2 default_epsilon
  = Some ([nan; nan; nan; nan], [0.25]).
Proof. vm_compute. reflexivity. Qed.

Lemma callers_params_unchanged_witness :
  exists (q : loc) (cost_history : list float) (H' : heap),
    adam_optimizer_st sample_cos sample_sin sample_deg2rad sample_fixed sample_moving
      0%nat 0.1 2 [true; true; true; true]
      default_beta1 default_beta2 default_epsilon [[1; 0; 0; 0]]
    = Some ((q, cost_history), H') /\
    H' !! 0%nat = Some [1; 0; 0; 0].
Proof.
  assert (Hrun : { out | adam_optimizer_st sample_cos sample_sin sample_deg2rad
                           sample_fixed sample_moving 0%nat 0.1 2
                           [true; true; true; true]
                           default_beta1 default_beta2 default_epsilon [[1; 0; 0; 0]]
                         = Some out }).
  { eexists. vm_compute. reflexivity. }
  destruct Hrun as [[[q cost_history] H'] Hrun].
  exists q, cost_history, H'. split; [exact Hrun|].
  destruct (proj1 (callers_params_unchanged sample_cos sample_sin sample_deg2rad
                     sample_fixed sample_moving 0%nat [[1; 0; 0; 0]])
              0.1 2%Z [true; true; true; true]
              default_beta1 default_beta2 default_epsilon q cost_history H' Hrun)
    as (Hsame & _).
  exact Hsame.
Defined.

Lemma similarity_transform_identity_witness :
  exists out v',
    similarity_transform sample_cos sample_sin sample_deg2rad sample_fixed [1; 0; 0; 0]
    = Some out /\
    pixel out 1 0 = Some v' /\ v' = 0.75.
Proof.
  destruct (similarity_transform_identity sample_cos sample_sin sample_deg2rad
              eq_refl eq_refl eq_refl sample_fixed 1 0 0.75)
    as (_ & _ & out & v' & Hout & _ & Hpix & _ & Hsame).
  - repeat constructor.
  - reflexivity.
  - reflexivity.
  - reflexivity.
  - exists out, v'. split; [exact Hout|]. split; [exact Hpix|].
    apply Hsame. discriminate.
Defined.

(** * Further properties on sample inputs *)


Lemma compute_gradient_arity_witness :
  compute_gradient sample_cos sample_sin sample_deg2rad sample_fixed sample_moving
    [] default_h = Some [] /\
  compute_gradient sample_cos sample_sin sample_deg2rad sample_fixed sample_moving
    [1; 0] default_h = None.
Proof.
  split.
  - apply (proj1 (compute_gradient_arity sample_cos sample_sin sample_deg2rad
                    sample_fixed sample_moving [] default_h)). reflexivity.
  - apply (proj2 (compute_gradient_arity sample_cos sample_sin sample_deg2rad
                    sample_fixed sample_moving [1; 0] default_h)); simpl; lia.
Defined.

Lemma adam_optimizer_lengths_witness :
  exists params cost_history,
    adam_optimizer sample_cos sample_sin sample_deg2rad sample_fixed sample_moving
      [1; 0; 0; 0] 0.1 3 [true; true; true; true]
      default_beta1 default_beta2 default_epsilon = Some (params, cost_history) /\
    length params = 4%nat /\ Z.of_nat (length cost_history) = 3%Z.
Proof.
  destruct (adam_optimizer_total sample_cos sample_sin sample_deg2rad
              sample_fixed sample_moving [1; 0; 0; 0] 0.1 3 [true; true; true; true]
              default_beta1 default_beta2 default_epsilon eq_refl eq_refl eq_refl)
    as (params & cost_history & Hrun & _).
  exists params, cost_history. split; [exact Hrun|].
  exact (adam_optimizer_lengths _ _ _ _ _ _ _ _ _ _ _ _ _ _ Hrun).
Defined.

Lemma adam_cost_history_entries_witness :
  exists params cost_history,
    adam_optimizer sample_cos sample_sin sample_deg2rad sample_fixed sample_moving
      [1; 0; 0; 0] 0.1 3 [true; true; true; true]
      default_beta1 default_beta2 default_epsilon = Some (params, cost_history) /\
    exists st transformed cost,
      adam_state_at sample_cos sample_sin sample_deg2rad sample_fixed sample_moving
        [1; 0; 0; 0] 0.1 [true; true; true; true]
        default_beta1 default_beta2 default_epsilon 0 = Some st /\
      similarity_transform sample_cos sample_sin sample_deg2rad sample_moving
        (st_params st) = Some transformed /\
      ssd sample_fixed transformed = Some cost /\
      cost_history !! 0%nat = Some cost.
Proof.
  destruct (adam_optimizer_total sample_cos sample_sin sample_deg2rad
              sample_fixed sample_moving [1; 0; 0; 0] 0.1 3 [true; true; true; true]
              default_beta1 default_beta2 default_epsilon eq_refl eq_refl eq_refl)
    as (params & cost_history & Hrun & _).
  exists params, cost_history. split; [exact Hrun|].
  apply (adam_cost_history_entries _ _ _ _ _ _ _ _ _ _ _ _ _ _ Hrun 0%nat). lia.
Defined.

Lemma adam_optimizer_mask_mismatch_witness :
  adam_optimizer sample_cos sample_sin sample_deg2rad sample_fixed sample_moving
    [1; 0; 0; 0] 0.1 300 [true; true; true]
    default_beta1 default_beta2 default_epsilon = None.
Proof.
  apply adam_optimizer_mask_mismatch; [lia|discriminate|simpl; lia].
Defined.

Lemma sample_zoom_shape (a b : image) (factor : float) :
  shape a = shape b -> shape (sample_zoom a factor) = shape (sample_zoom b factor).
Proof. unfold shape, sample_zoom. simpl. intros [= -> ->]. reflexivity. Qed.

Lemma register_returns_witness :
  exists optimal_params cost_history corregistred_image,
    register sample_zoom sample_cos sample_sin sample_deg2rad sample_fixed sample_moving
    = Some (optimal_params, cost_history, corregistred_image) /\
    length optimal_params = 4%nat /\
    length cost_history = 1500%nat /\
    shape corregistred_image = shape sample_moving.
Proof.
  apply (register_returns sample_zoom sample_cos sample_sin sample_deg2rad
           sample_zoom_shape sample_fixed sample_moving).
  reflexivity.
Defined.

Lemma compute_gradient_zero_step_witness :
  compute_gradient sample_cos sample_sin sample_deg2rad sample_fixed sample_moving
    [1; 0; 0; 0] 0 = Some [nan; nan; nan; nan].
Proof.
  apply (compute_gradient_zero_step sample_cos sample_sin sample_deg2rad
           sample_fixed sample_moving [1; 0; 0; 0]).
  - reflexivity.
  - reflexivity.
  - repeat constructor; discriminate.
Defined.

Lemma identity_resample_cost_zero_witness :
  exists out,
    similarity_transform sample_cos sample_sin sample_deg2rad sample_fixed [1; 0; 0; 0]
    = Some out /\ ssd sample_fixed out = Some 0.
Proof.
  apply (identity_resample_cost_zero sample_cos sample_sin sample_deg2rad
           eq_refl eq_refl eq_refl sample_fixed).
  - repeat constructor.
  - reflexivity.
  - reflexivity.
  - reflexivity.
Defined.

Lemma translation_rescale_round_trip_witness :
  mul_from 2 (div_from 2 [1; 0; 0.3; -7.25] (Z2F (2 ^ Z.of_nat 3)))
    (Z2F (2 ^ Z.of_nat 3)) = [1; 0; 0.3; -7.25].
Proof.
  apply (translation_rescale_round_trip 3 [1; 0; 0.3; -7.25]).
  - lia.
  - constructor; [right; split; reflexivity|].
    constructor; [right; split; reflexivity|]. constructor.
Defined.

Lemma translation_level_handoff_witness :
  div_from 2 (mul_from 2 [1; 0; 0.3; -7.25] (Z2F (2 ^ Z.of_nat 3)))
    (Z2F (2 ^ Z.of_nat 2)) = mul_from 2 [1; 0; 0.3; -7.25] 2.
Proof.
  apply (translation_level_handoff 2 [1; 0; 0.3; -7.25]).
  - lia.
  - constructor; [right; repeat split; reflexivity|].
    constructor; [right; repeat split; reflexivity|]. constructor.
Defined.


Lemma similarity_transform_integer_shift_witness :
  exists out v',
    similarity_transform sample_cos sample_sin sample_deg2rad sample_fixed
      [1; 0; Z2F 0; Z2F 1] = Some out /\
    pixel out 1 0 = Some v' /\ v' = 0.25.
Proof.
  destruct (similarity_transform_integer_shift sample_cos sample_sin sample_deg2rad
              eq_refl eq_refl eq_refl sample_fixed 1 0 1 0)
    as (out & v' & Hout & Hpix & _ & Hsame).
  - repeat constructor.
  - reflexivity.
  - reflexivity.
  - reflexivity.
  - reflexivity.
  - simpl. lia.
  - simpl. lia.
  - exists out, v'. split; [exact Hout|]. split; [exact Hpix|].
    apply Hsame. discriminate.
Defined.
